(** * Heimdall: signaling relay, client connection handler and capture loops

    Shallow embedding of
    - [src/server/signaling.js]: [validateDetectionPayload], the
      [ws.on('message')] relay handler and the accept/close registry code;
    - [src/frontend/src/components/WebRTCHandler.jsx]: the connection
      lifecycle ([connect], [establishConnection], [handleDisconnect],
      [disconnect]) and the handshake-signal path ([handleMessage],
      [createPeer], [resetPeer]);
    - [src/unnamed/part_004]: the two frame capture loops [sendFrame] and
      [sendSingleFrame]. *)

From Stdlib Require Import List String Bool Arith Lia QArith ZArith.
Import ListNotations.
Set Warnings "-register-all".
Open Scope string_scope.
Open Scope list_scope.
Open Scope nat_scope.

(** ** JavaScript values, as produced by [JSON.parse] *)

(** Numbers are finite rationals: [JSON.parse] never yields [NaN].  An
    object is the list of its own properties; a parsed object holds one
    binding per key. *)
Inductive jsval : Type :=
| JUndefined
| JNull
| JBool (b : bool)
| JNum (q : Q)
| JStr (s : string)
| JArr (xs : list jsval)
| JObj (kvs : list (string * jsval)).

Fixpoint assoc (k : string) (kvs : list (string * jsval)) : jsval :=
  match kvs with
  | [] => JUndefined
  | (k', v) :: kvs' => if String.eqb k k' then v else assoc k kvs'
  end.

(** [v[k]] on a value that is neither [null] nor [undefined] (the key
    names read by the code are no prototype properties). *)
Definition field (v : jsval) (k : string) : jsval :=
  match v with
  | JObj kvs => assoc k kvs
  | _ => JUndefined
  end.

(** [v.k] with the [TypeError] on [null] and [undefined] as [None]. *)
Definition prop (v : jsval) (k : string) : option jsval :=
  match v with
  | JUndefined | JNull => None
  | _ => Some (field v k)
  end.

Definition is_undefined (v : jsval) : bool :=
  match v with JUndefined => true | _ => false end.

(** JavaScript truthiness ([!!v]). *)
Definition truthy (v : jsval) : bool :=
  match v with
  | JUndefined | JNull => false
  | JBool b => b
  | JNum q => negb (Qeq_bool q 0)
  | JStr s => negb (String.eqb s "")
  | JArr _ | JObj _ => true
  end.

(** [typeof v === 'object'] *)
Definition typeof_object (v : jsval) : bool :=
  match v with JNull | JArr _ | JObj _ => true | _ => false end.

(** [typeof v === 'number'] *)
Definition typeof_number (v : jsval) : bool :=
  match v with JNum _ => true | _ => false end.

(** [typeof v === 'string'] *)
Definition typeof_string (v : jsval) : bool :=
  match v with JStr _ => true | _ => false end.

(** [a < b] on numbers. *)
Definition Qltb (a b : Q) : bool := negb (Qle_bool b a).

(** [a < b] as the validator uses it, on values already checked numeric. *)
Definition js_lt (a b : jsval) : bool :=
  match a, b with
  | JNum x, JNum y => Qltb x y
  | _, _ => false
  end.

(** [a === b]; two object or array references parsed from distinct
    messages are never identical. *)
Definition strict_eq (a b : jsval) : bool :=
  match a, b with
  | JUndefined, JUndefined | JNull, JNull => true
  | JBool x, JBool y => Bool.eqb x y
  | JNum x, JNum y => Qeq_bool x y
  | JStr x, JStr y => String.eqb x y
  | _, _ => false
  end.

(** ** The Payload Validator ([validateDetectionPayload]) *)

(** The rejection reasons; each stands for the string the code builds,
    e.g. [ScoreOutOfRange i] for [`detection[${i}].score must be a number
    in [0,1]`]. *)
Inductive reason : Type :=
| NotObject
| MissingFrameId
| CaptureTsNotNumber
| InferenceTsNotNumber
| DetectionsNotArray
| DetectionNotObject (i : nat)
| LabelNotString (i : nat)
| ScoreOutOfRange (i : nat)
| CoordOutOfRange (i : nat) (k : string)
| BoxInvalid (i : nat).

Inductive vresult : Type :=
| VOk
| VReject (r : reason).

(** [typeof x !== 'number' || x < 0 || x > 1] *)
Definition bad_unit (x : jsval) : bool :=
  match x with
  | JNum q => Qltb q 0 || Qltb 1 q
  | _ => true
  end.

(** [for (const k of keys) if (...) return {ok:false, ...}] *)
Fixpoint check_coords (i : nat) (d : jsval) (keys : list string) : vresult :=
  match keys with
  | [] => VOk
  | k :: ks => if bad_unit (field d k) then VReject (CoordOutOfRange i k)
               else check_coords i d ks
  end.

(** The body of the [for (let i = 0; ...)] loop for [d = detections[i]]. *)
Definition check_detection (i : nat) (d : jsval) : vresult :=
  if negb (truthy d) || negb (typeof_object d) then VReject (DetectionNotObject i)
  else if negb (typeof_string (field d "label")) then VReject (LabelNotString i)
  else if bad_unit (field d "score") then VReject (ScoreOutOfRange i)
  else match check_coords i d ["xmin"; "ymin"; "xmax"; "ymax"] with
       | VReject r => VReject r
       | VOk =>
           if negb (js_lt (field d "xmin") (field d "xmax")
                    && js_lt (field d "ymin") (field d "ymax"))
           then VReject (BoxInvalid i) else VOk
       end.

Fixpoint check_detections (i : nat) (ds : list jsval) : vresult :=
  match ds with
  | [] => VOk
  | d :: ds' => match check_detection i d with
                | VOk => check_detections (S i) ds'
                | r => r
                end
  end.

Definition validateDetectionPayload (payload : jsval) : vresult :=
  if negb (truthy payload) || negb (typeof_object payload) then VReject NotObject
  else if is_undefined (field payload "frame_id") then VReject MissingFrameId
  else if negb (typeof_number (field payload "capture_ts")) then VReject CaptureTsNotNumber
  else if negb (typeof_number (field payload "inference_ts")) then VReject InferenceTsNotNumber
  else match field payload "detections" with
       | JArr ds => check_detections 0 ds
       | _ => VReject DetectionsNotArray
       end.

(** The spec's reading of the validator (§4.4), with the two object checks
    and the label rule as the code has them: an ordered list of
    (rule holds, reason) pairs, the answer being the first failing rule. *)
Definition first_failure (rules : list (bool * reason)) : vresult :=
  match find (fun r => negb (fst r)) rules with
  | Some (_, r) => VReject r
  | None => VOk
  end.

Definition is_nonnull_object (v : jsval) : bool :=
  match v with JArr _ | JObj _ => true | _ => false end.

Definition in_unit (v : jsval) : bool :=
  match v with JNum q => Qle_bool 0 q && Qle_bool q 1 | _ => false end.

Definition element_rules (i : nat) (d : jsval) : list (bool * reason) :=
  [(is_nonnull_object d, DetectionNotObject i);
   (typeof_string (field d "label"), LabelNotString i);
   (in_unit (field d "score"), ScoreOutOfRange i);
   (in_unit (field d "xmin"), CoordOutOfRange i "xmin");
   (in_unit (field d "ymin"), CoordOutOfRange i "ymin");
   (in_unit (field d "xmax"), CoordOutOfRange i "xmax");
   (in_unit (field d "ymax"), CoordOutOfRange i "ymax");
   (js_lt (field d "xmin") (field d "xmax") && js_lt (field d "ymin") (field d "ymax"),
    BoxInvalid i)].

Fixpoint elements_rules (i : nat) (ds : list jsval) : list (bool * reason) :=
  match ds with
  | [] => []
  | d :: ds' => element_rules i d ++ elements_rules (S i) ds'
  end.

Definition payload_rules (p : jsval) : list (bool * reason) :=
  [(is_nonnull_object p, NotObject);
   (negb (is_undefined (field p "frame_id")), MissingFrameId);
   (typeof_number (field p "capture_ts"), CaptureTsNotNumber);
   (typeof_number (field p "inference_ts"), InferenceTsNotNumber);
   (match field p "detections" with JArr _ => true | _ => false end, DetectionsNotArray)]
  ++ match field p "detections" with JArr ds => elements_rules 0 ds | _ => [] end.

Definition spec_validate (p : jsval) : vresult := first_failure (payload_rules p).

(** ** The relay server ([signaling.js]) *)

(** Socket handles are numbered in accept order. The registry [peers] is the
    JavaScript [Map]: (identity, socket) pairs in insertion order. *)
Definition socket := nat.
Definition registry := list (string * socket).

(** [peers.set(k, v)]: an existing key keeps its place. *)
Fixpoint map_set (k : string) (v : socket) (m : registry) : registry :=
  match m with
  | [] => [(k, v)]
  | (k', v') :: m' => if String.eqb k k' then (k, v) :: m' else (k', v') :: map_set k v m'
  end.

(** [peers.delete(k)] *)
Fixpoint map_delete (k : string) (m : registry) : registry :=
  match m with
  | [] => []
  | (k', v') :: m' => if String.eqb k k' then m' else (k', v') :: map_delete k m'
  end.

(** What the server puts on a socket: the [error] object literal of the
    detection branch, or the [forwarded] object literal of the broadcast. *)
Inductive out_msg : Type :=
| OutError (code : string) (r : reason)
| OutForward (type_ : jsval) (from : string) (payload : jsval).

Definition out_from (m : out_msg) : option string :=
  match m with OutForward _ f _ => Some f | OutError _ _ => None end.

(** [Object.assign({}, p, { recv_ts: now })] on a plain object; the array
    case cannot occur: the validator rejects arrays. *)
Definition with_recv_ts (p : jsval) (now : Q) : jsval :=
  match p with
  | JObj kvs => JObj (filter (fun kv => negb (String.eqb (fst kv) "recv_ts")) kvs
                      ++ [("recv_ts", JNum now)])
  | _ => p
  end.

(** [data.payload !== undefined ? data.payload : data] *)
Definition unwrap_payload (data : jsval) : jsval :=
  let p := field data "payload" in if is_undefined p then data else p.

Definition is_detection (ty : jsval) : bool := strict_eq ty (JStr "detection").

(** The [peers.forEach] broadcast loop. *)
Definition broadcast (peers : registry) (is_open : socket -> bool) (peerId : string)
    (ty : jsval) (data : jsval) (now : Q) : list (socket * out_msg) :=
  flat_map (fun '(id, peer) =>
      if negb (String.eqb id peerId) && is_open peer then
        let payload := unwrap_payload data in
        let payload := if is_detection ty && truthy payload && typeof_object payload
                       then with_recv_ts payload now else payload in
        [(peer, OutForward ty peerId payload)]
      else [])
    peers.

(** [ws.on('message')] of the connection [(peerId, ws)]. [raw] is the result
    of [JSON.parse] ([None] when it throws); [now] is [Date.now()]. The
    result lists the [send] calls in order. *)
Definition on_message (peers : registry) (is_open : socket -> bool) (peerId : string)
    (ws : socket) (now : Q) (raw : option jsval) : list (socket * out_msg) :=
  match raw with
  | None => []
  | Some data =>
      match prop data "type" with
      | None => []
      | Some ty =>
          if is_detection ty then
            match validateDetectionPayload (unwrap_payload data) with
            | VReject r => [(ws, OutError "invalid_detection" r)]
            | VOk => broadcast peers is_open peerId ty data now
            end
          else broadcast peers is_open peerId ty data now
      end
  end.

(** Accept and close. [conns] records, per socket handle, the [peerId]
    captured by its handlers and whether the socket is still live. The
    identity is [Math.random().toString(36).slice(2)], taken as input. *)
Record server := mkServer { peers : registry; conns : list (string * bool) }.

Definition server_init : server := mkServer [] [].

Inductive server_event : Type :=
| Accept (token : string)
| Close (s : socket).

Fixpoint set_nth {A} (l : list A) (n : nat) (x : A) : list A :=
  match l, n with
  | [], _ => []
  | _ :: l', O => x :: l'
  | y :: l', S n' => y :: set_nth l' n' x
  end.

Definition server_step (st : server) (e : server_event) : option server :=
  match e with
  | Accept token =>
      let ws := List.length (conns st) in
      Some (mkServer (map_set token ws (peers st)) (conns st ++ [(token, true)]))
  | Close s =>
      match nth_error (conns st) s with
      | Some (peerId, true) =>
          Some (mkServer (map_delete peerId (peers st)) (set_nth (conns st) s (peerId, false)))
      | _ => None
      end
  end.

Fixpoint server_run (st : server) (evs : list server_event) : option server :=
  match evs with
  | [] => Some st
  | e :: evs' => match server_step st e with
                 | Some st' => server_run st' evs'
                 | None => None
                 end
  end.

(** Identities of the currently live connections. *)
Definition live_ids (st : server) : list string :=
  map fst (filter snd (conns st)).

(** Every accepted token differs from the live identities at that moment. *)
Fixpoint fresh_tokens (st : server) (evs : list server_event) : Prop :=
  match evs with
  | [] => True
  | e :: evs' =>
      (match e with Accept t => ~ In t (live_ids st) | Close _ => True end) /\
      match server_step st e with
      | Some st' => fresh_tokens st' evs'
      | None => True
      end
  end.

(** ** Client connection lifecycle ([WebRTCHandler]) *)

Module Conn.

(** The browser [WebSocket]'s [readyState]. *)
Inductive sock_state : Type := Connecting | Open | Closing | Closed.

Definition sock_state_eqb (a b : sock_state) : bool :=
  match a, b with
  | Connecting, Connecting | Open, Open | Closing, Closing | Closed, Closed => true
  | _, _ => false
  end.

(** The fields of a [WebRTCHandler] this part reads and writes. Every
    [new WebSocket] appends to [sockets] (its handle is its position);
    [ws] is [this.ws]; [timers] holds the delays of the pending
    [setTimeout(() => this.establishConnection(), delay)] calls. The ping
    interval does not touch these fields and is left out. *)
Record handler := mkHandler {
  connected : bool;
  reconnectAttempts : nat;
  ws : option nat;
  sockets : list sock_state;
  timers : list Z
}.

Definition maxReconnectAttempts : nat := 5.
Definition reconnectDelay : Z := 2000.

Definition init : handler := mkHandler false 0 None [] [].

(** [this.reconnectDelay * Math.pow(2, this.reconnectAttempts - 1)] *)
Definition backoff (attempts : nat) : Z :=
  reconnectDelay * 2 ^ (Z.of_nat attempts - 1).

Definition establishConnection (h : handler) : handler :=
  if connected h || Nat.leb maxReconnectAttempts (reconnectAttempts h) then h
  else mkHandler (connected h) (reconnectAttempts h) (Some (List.length (sockets h)))
         (sockets h ++ [Connecting]) (timers h).

Definition handleDisconnect (h : handler) : handler :=
  if negb (connected h) then h
  else
    let a := S (reconnectAttempts h) in
    mkHandler false a (ws h) (sockets h)
      (if Nat.ltb a maxReconnectAttempts then timers h ++ [backoff a] else timers h).

(** [ws.close()]: a connecting or open socket starts closing. *)
Definition close_sock (ss : list sock_state) (i : nat) : list sock_state :=
  match nth_error ss i with
  | Some Connecting | Some Open => set_nth ss i Closing
  | _ => ss
  end.

Definition connect (h : handler) : handler :=
  let h1 := match ws h with
            | Some i => mkHandler (connected h) (reconnectAttempts h) None
                          (close_sock (sockets h) i) (timers h)
            | None => h
            end in
  establishConnection h1.

Definition disconnect (h : handler) : handler :=
  mkHandler false maxReconnectAttempts None
    (match ws h with Some i => close_sock (sockets h) i | None => sockets h end)
    (timers h).

(** [ws.onopen] *)
Definition onopen (h : handler) : handler :=
  mkHandler true 0 (ws h) (sockets h) (timers h).

Fixpoint remove_nth {A} (l : list A) (n : nat) : list A :=
  match l, n with
  | [], _ => []
  | _ :: l', O => l'
  | y :: l', S n' => y :: remove_nth l' n' 
  end.

(** Events: API calls, transport events of socket [i] (whose handlers
    all act on the same handler object), and the firing of the [j]-th
    pending backoff timer. *)
Inductive event : Type :=
| EConnect
| EDisconnect
| EOpen (i : nat)
| EError (i : nat)
| EClose (i : nat)
| EFire (j : nat).

Definition step (h : handler) (e : event) : option handler :=
  match e with
  | EConnect => Some (connect h)
  | EDisconnect => Some (disconnect h)
  | EOpen i =>
      match nth_error (sockets h) i with
      | Some Connecting =>
          Some (onopen (mkHandler (connected h) (reconnectAttempts h) (ws h)
                          (set_nth (sockets h) i Open) (timers h)))
      | _ => None
      end
  | EError i =>
      match nth_error (sockets h) i with
      | Some Closed | None => None
      | Some _ => Some (handleDisconnect h)
      end
  | EClose i =>
      match nth_error (sockets h) i with
      | Some Closed | None => None
      | Some _ =>
          Some (handleDisconnect (mkHandler (connected h) (reconnectAttempts h) (ws h)
                                    (set_nth (sockets h) i Closed) (timers h)))
      end
  | EFire j =>
      match nth_error (timers h) j with
      | Some _ => Some (establishConnection (mkHandler (connected h) (reconnectAttempts h)
                                               (ws h) (sockets h) (remove_nth (timers h) j)))
      | None => None
      end
  end.

Fixpoint run (h : handler) (evs : list event) : option handler :=
  match evs with
  | [] => Some h
  | e :: evs' => match step h e with
                 | Some h' => run h' evs'
                 | None => None
                 end
  end.

Definition reachable (h : handler) : Prop := exists evs, run init evs = Some h.

End Conn.

(** ** Handshake-signal path ([handleMessage], [createPeer], [resetPeer]) *)

Module Sig.

(** The fields of a [WebRTCHandler] this part reads and writes. Each
    [new Peer(...)] gets the number [peers_made]; [applied] lists the
    [peer.signal(x)] calls as (peer number, x). [peer.signal] is taken not
    to throw. *)
Record sig_state := mkSig {
  peer : option nat;
  peers_made : nat;
  pendingSignal : option jsval;
  clientId : jsval;
  applied : list (nat * jsval)
}.

Definition init : sig_state := mkSig None 0 None JNull [].

(** One round of
    [if (incoming && typeof incoming === 'object' && incoming.payload !== undefined)
       incoming = incoming.payload]. *)
Definition unwrap_once (x : jsval) : jsval :=
  if truthy x && typeof_object x && negb (is_undefined (field x "payload"))
  then field x "payload" else x.

(** [incoming] after the [for (let i = 0; i < 3; i++)] loop. *)
Definition incoming_of (message : jsval) : jsval :=
  let i0 := if is_undefined (field message "payload") then field message "data"
            else field message "payload" in
  unwrap_once (unwrap_once (unwrap_once i0)).

Definition isValidSignal (x : jsval) : bool :=
  truthy x && typeof_object x &&
  (negb (is_undefined (field x "sdp")) || negb (is_undefined (field x "type"))
   || negb (is_undefined (field x "candidate")) || negb (is_undefined (field x "renegotiate"))).

Definition set_peer (s : sig_state) (p : option nat) : sig_state :=
  mkSig p (peers_made s) (pendingSignal s) (clientId s) (applied s).

(** [createPeer]: construct the peer, then replay the pending signal. *)
Definition createPeer (s : sig_state) : sig_state :=
  match peer s with
  | Some _ => s
  | None =>
      let p := peers_made s in
      match pendingSignal s with
      | Some x =>
          if truthy x then mkSig (Some p) (S p) None (clientId s) (applied s ++ [(p, x)])
          else mkSig (Some p) (S p) (pendingSignal s) (clientId s) (applied s)
      | None => mkSig (Some p) (S p) None (clientId s) (applied s)
      end
  end.

(** The [case 'signal'] branch. *)
Definition on_signal (s : sig_state) (message : jsval) : sig_state :=
  if negb (strict_eq (field message "from") (clientId s)) then
    let incoming := incoming_of message in
    if negb (truthy incoming) then s
    else match peer s with
         | Some p =>
             if isValidSignal incoming
             then mkSig (peer s) (peers_made s) (pendingSignal s) (clientId s)
                    (applied s ++ [(p, incoming)])
             else s
         | None => mkSig None (peers_made s) (Some incoming) (clientId s) (applied s)
         end
  else s.

(** [handleMessage]; the branches other than [id] and [signal] only log or
    call the application's callbacks. *)
Definition handleMessage (s : sig_state) (message : jsval) : sig_state :=
  match field message "type" with
  | JStr t =>
      if String.eqb t "id" then
        createPeer (mkSig (peer s) (peers_made s) (pendingSignal s) (field message "id") (applied s))
      else if String.eqb t "signal" then on_signal s message
      else s
  | _ => s
  end.

(** Events: an inbound server message; [resetPeer] (the peer's [close] or
    fatal [error], an ended video track) which destroys the peer; the
    [setTimeout(() => this.createPeer(), 2000)] it schedules firing (allowed
    at any time); and [disconnect()]. *)
Inductive event : Type :=
| SMsg (m : jsval)
| SResetPeer
| SCreatePeerTimer
| SDisconnect.

Definition step (s : sig_state) (e : event) : sig_state :=
  match e with
  | SMsg m => handleMessage s m
  | SResetPeer => set_peer s None
  | SCreatePeerTimer => createPeer s
  | SDisconnect => set_peer s None
  end.

Definition run (s : sig_state) (evs : list event) : sig_state := fold_left step evs s.

(** A [signal] message is an event [SMsg m] with [m.type === 'signal']. *)
Definition is_signal_msg (e : event) : bool :=
  match e with
  | SMsg m => strict_eq (field m "type") (JStr "signal")
  | _ => false
  end.

End Sig.

(** ** Capture loops ([src/unnamed/part_004]) *)

(** [sendFrame], the server-inference loop: a self-rescheduling
    [setTimeout(sendFrame, captureInterval)] chain with the [inflight]
    flag cleared by the [fetch] completion. [scheduled] counts pending
    timeouts, [captures] the canvas draws ([drawImage] and [toDataURL]),
    [sends] the [fetch] POSTs. *)
Module InferLoop.

Record loop := mkLoop {
  stopped : bool;
  video_ready : bool;
  inflight : bool;
  captures : nat;
  sends : nat;
  scheduled : nat
}.

Definition sendFrame (l : loop) : loop :=
  if stopped l then l
  else if negb (video_ready l) then
    (* [setTimeout] before [return], then the one of [finally] *)
    mkLoop (stopped l) (video_ready l) (inflight l) (captures l) (sends l) (S (S (scheduled l)))
  else
    let c := S (captures l) in
    if inflight l then
      (* [setTimeout] in the [if (inflight)] branch, then the one of [finally] *)
      mkLoop (stopped l) (video_ready l) true c (sends l) (S (S (scheduled l)))
    else
      mkLoop (stopped l) (video_ready l) true c (S (sends l)) (S (scheduled l)).

(** A tick: one pending timeout fires. *)
Definition tick (l : loop) : option loop :=
  match scheduled l with
  | O => None
  | S n => Some (sendFrame (mkLoop (stopped l) (video_ready l) (inflight l)
                                   (captures l) (sends l) n))
  end.

(** [.finally(() => { inflight = false; })] *)
Definition fetch_done (l : loop) : loop :=
  mkLoop (stopped l) (video_ready l) false (captures l) (sends l) (scheduled l).

End InferLoop.

(** [sendSingleFrame], the live-WS loop driven by [setInterval]. Its
    [inflight] variable is declared and never read or written again.
    [outstanding] counts frames sent whose result has not come back on the
    live WS yet. *)
Module LiveLoop.

Record loop := mkLoop {
  video_ready : bool;
  ws_open : bool;
  inflight : bool;
  outstanding : nat;
  captures : nat;
  sends : nat
}.

Definition sendSingleFrame (l : loop) : loop :=
  if negb (video_ready l) then l
  else
    let c := S (captures l) in
    if ws_open l then
      mkLoop (video_ready l) (ws_open l) (inflight l) (S (outstanding l)) c (S (sends l))
    else mkLoop (video_ready l) (ws_open l) (inflight l) (outstanding l) c (sends l).

End LiveLoop.

(** ** Further definitions used by the properties below *)

(** The index a rejection reason names, for the per-element reasons. *)
Definition reason_index (r : reason) : option nat :=
  match r with
  | DetectionNotObject i | LabelNotString i | ScoreOutOfRange i
  | CoordOutOfRange i _ | BoxInvalid i => Some i
  | _ => None
  end.

(** The relay's liveness sweep ([setInterval] every 30 s over
    [wss.clients]) and the [pong] handler. [in_clients] is false once the
    socket has been terminated or has closed (it then leaves
    [wss.clients]). *)
Module Liveness.

Record client := mkClient { isAlive : bool; in_clients : bool }.

(** One iteration of [wss.clients.forEach]. *)
Definition sweep_one (c : client) : client :=
  if negb (in_clients c) then c
  else if negb (isAlive c) then mkClient (isAlive c) false  (* [ws.terminate()] *)
  else mkClient false true.                                 (* [ws.isAlive = false; ws.ping()] *)

Definition sweep (cs : list client) : list client := map sweep_one cs.

(** [ws.on('pong', () => { ws.isAlive = true; })] *)
Definition pong (cs : list client) (i : nat) : list client :=
  match nth_error cs i with
  | Some c => if in_clients c then set_nth cs i (mkClient true true) else cs
  | None => cs
  end.

Inductive event : Type :=
| LAccept          (* [wss.on('connection')]: [ws.isAlive = true] *)
| LSweep
| LPong (i : nat)
| LClose (i : nat). (* the socket closes on its own *)

Definition step (cs : list client) (e : event) : list client :=
  match e with
  | LAccept => cs ++ [mkClient true true]
  | LSweep => sweep cs
  | LPong i => pong cs i
  | LClose i =>
      match nth_error cs i with
      | Some c => set_nth cs i (mkClient (isAlive c) false)
      | None => cs
      end
  end.

Definition run (cs : list client) (evs : list event) : list client := fold_left step evs cs.

End Liveness.

(** Whether [this.pingInterval] is set, next to the [Conn] model:
    [_startPing] in [onopen], [_stopPing] in [handleDisconnect] past its
    [connected] guard; [connect], [disconnect] and the backoff timers do
    not touch it. *)
Module ConnPing.
Import Conn.

Definition ping_after (h : handler) (e : event) (p : bool) : bool :=
  match e with
  | EOpen _ => true
  | EError _ | EClose _ => if connected h then false else p
  | EConnect | EDisconnect | EFire _ => p
  end.

Fixpoint run_ping (h : handler) (p : bool) (evs : list event) : option (handler * bool) :=
  match evs with
  | [] => Some (h, p)
  | e :: evs' => match step h e with
                 | Some h' => run_ping h' (ping_after h e p) evs'
                 | None => None
                 end
  end.

End ConnPing.

(** A signal payload wrapped [k] times as [{ payload: ... }]. *)
Fixpoint wrap (k : nat) (x : jsval) : jsval :=
  match k with
  | O => x
  | S k' => JObj [("payload", wrap k' x)]
  end.

(** [n] firings of pending [sendFrame] timeouts. *)
Fixpoint infer_ticks (n : nat) (l : InferLoop.loop) : option InferLoop.loop :=
  match n with
  | O => Some l
  | S n' => match InferLoop.tick l with
            | Some l' => infer_ticks n' l'
            | None => None
            end
  end.

(** * Properties *)

(** ** Sample payloads *)

Definition det_ok : jsval :=
  JObj [("label", JStr "person"); ("score", JNum (9#10));
        ("xmin", JNum 0); ("ymin", JNum 0); ("xmax", JNum (1#2)); ("ymax", JNum (1#2))].

Definition frame (dets : list jsval) : jsval :=
  JObj [("frame_id", JStr "f1"); ("capture_ts", JNum 1000); ("inference_ts", JNum 1020);
        ("detections", JArr dets)].

Example validate_det_ok : validateDetectionPayload (frame [det_ok]) = VOk.
Proof. reflexivity. Qed.

Example validate_score_1_5 :
  validateDetectionPayload
    (frame [det_ok; JObj [("label", JStr "cup"); ("score", JNum (3#2));
                          ("xmin", JNum 0); ("ymin", JNum 0); ("xmax", JNum 1); ("ymax", JNum 1)]])
  = VReject (ScoreOutOfRange 1).
Proof. reflexivity. Qed.

Example validate_box_flat :
  validateDetectionPayload
    (frame [JObj [("label", JStr "cup"); ("score", JNum 1);
                  ("xmin", JNum (1#2)); ("ymin", JNum 0); ("xmax", JNum (1#2)); ("ymax", JNum 1)]])
  = VReject (BoxInvalid 0).
Proof. reflexivity. Qed.

(** ** Validator lemmas *)

Lemma first_failure_cons (b : bool) (r : reason) (l : list (bool * reason)) :
  first_failure ((b, r) :: l) = if b then first_failure l else VReject r.
Proof. unfold first_failure; simpl; destruct b; reflexivity. Qed.

Lemma first_failure_app (l1 l2 : list (bool * reason)) :
  first_failure (l1 ++ l2) =
  match first_failure l1 with VOk => first_failure l2 | r => r end.
Proof.
  induction l1 as [|[b r] l1 IH]; [reflexivity|].
  simpl app. rewrite !first_failure_cons. destruct b; [exact IH|reflexivity].
Qed.

Lemma bad_unit_in_unit (x : jsval) : bad_unit x = negb (in_unit x).
Proof.
  destruct x; try reflexivity. simpl. unfold Qltb.
  destruct (Qle_bool 0 q), (Qle_bool q 1); reflexivity.
Qed.

Lemma check_detection_rules (i : nat) (d : jsval) :
  check_detection i d = first_failure (element_rules i d).
Proof.
  unfold check_detection, element_rules. simpl check_coords.
  rewrite !bad_unit_in_unit, !first_failure_cons.
  assert (Hobj : negb (truthy d) || negb (typeof_object d) = negb (is_nonnull_object d))
    by (destruct d; simpl; rewrite ?orb_true_r; reflexivity).
  rewrite Hobj.
  destruct (is_nonnull_object d), (typeof_string (field d "label")),
    (in_unit (field d "score")), (in_unit (field d "xmin")), (in_unit (field d "ymin")),
    (in_unit (field d "xmax")), (in_unit (field d "ymax")),
    (js_lt (field d "xmin") (field d "xmax") && js_lt (field d "ymin") (field d "ymax"));
    reflexivity.
Qed.

Lemma check_detections_rules (ds : list jsval) : forall i,
  check_detections i ds = first_failure (elements_rules i ds).
Proof.
  induction ds as [|d ds IH]; intro i; [reflexivity|].
  cbn [check_detections elements_rules].
  rewrite first_failure_app, <- check_detection_rules, IH.
  destruct (check_detection i d); reflexivity.
Qed.

(** ** C2: invalid detection payloads are answered to the sender only *)

(** C2. When an inbound message has [type] [detection] and its unwrapped
    payload fails the validator with reason [r], the relay performs exactly
    one send: an [error] Envelope with code [invalid_detection] and reason
    [r], on the sender's own socket; nothing is broadcast. *)
Theorem relay_rejects_invalid_detection (peers : registry) (is_open : socket -> bool)
    (peerId : string) (ws : socket) (now : Q) (data : jsval) (r : reason) :
  prop data "type" = Some (JStr "detection") ->
  validateDetectionPayload (unwrap_payload data) = VReject r ->
  on_message peers is_open peerId ws now (Some data) = [(ws, OutError "invalid_detection" r)].
Proof.
  intros Hty Hv. unfold on_message. rewrite Hty. simpl. rewrite Hv. reflexivity.
Qed.

Definition score_1_5_msg : jsval :=
  JObj [("type", JStr "detection");
        ("payload", frame [JObj [("label", JStr "cup"); ("score", JNum (3#2));
                                 ("xmin", JNum 0); ("ymin", JNum 0);
                                 ("xmax", JNum 1); ("ymax", JNum 1)]])].

Lemma relay_rejects_invalid_detection_witness :
  prop score_1_5_msg "type" = Some (JStr "detection") /\
  validateDetectionPayload (unwrap_payload score_1_5_msg) = VReject (ScoreOutOfRange 0) /\
  on_message [("a", 0%nat); ("b", 1%nat)] (fun _ => true) "a" 0%nat 0%Q (Some score_1_5_msg)
  = [(0%nat, OutError "invalid_detection" (ScoreOutOfRange 0))].
Proof.
  split; [reflexivity|]. split; [reflexivity|].
  apply relay_rejects_invalid_detection; reflexivity.
Defined.

(** ** C3: the validator's rules *)

(** C3 as stated requires a non-empty label; the validator accepts an
    empty one. *)
Lemma validator_accepts_empty_label :
  validateDetectionPayload
    (frame [JObj [("label", JStr ""); ("score", JNum (1#2));
                  ("xmin", JNum 0); ("ymin", JNum 0); ("xmax", JNum 1); ("ymax", JNum 1)]])
  = VOk.
Proof. reflexivity. Qed.

(** C3 (amended). The validator is exactly the first failure among, in
    order: payload is a non-null object; [frame_id] present; [capture_ts]
    numeric; [inference_ts] numeric; [detections] an array; then for each
    element in index order: non-null object, [label] a string (possibly
    empty), [score] numeric in [0,1], [xmin], [ymin], [xmax], [ymax] each
    numeric in [0,1], and [xmin < xmax && ymin < ymax]. In particular a
    payload passing the first five rules with an empty [detections] array
    is accepted. *)
Theorem validator_first_failing_rule :
  (forall p, validateDetectionPayload p = spec_validate p) /\
  (forall p, is_nonnull_object p = true -> is_undefined (field p "frame_id") = false ->
     typeof_number (field p "capture_ts") = true ->
     typeof_number (field p "inference_ts") = true ->
     field p "detections" = JArr [] -> validateDetectionPayload p = VOk).
Proof.
  assert (Heq : forall p, validateDetectionPayload p = spec_validate p).
  { intro p. unfold validateDetectionPayload, spec_validate, payload_rules.
    rewrite first_failure_app. simpl app. rewrite !first_failure_cons.
    assert (Hobj : negb (truthy p) || negb (typeof_object p) = negb (is_nonnull_object p))
      by (destruct p; simpl; rewrite ?orb_true_r; reflexivity).
    rewrite Hobj.
    destruct (is_nonnull_object p); [|reflexivity].
    destruct (is_undefined (field p "frame_id")); [reflexivity|].
    destruct (typeof_number (field p "capture_ts")); [|reflexivity].
    destruct (typeof_number (field p "inference_ts")); [|reflexivity].
    destruct (field p "detections"); try reflexivity.
    simpl. rewrite check_detections_rules. destruct (first_failure (elements_rules 0 xs));
    reflexivity. }
  split; [exact Heq|].
  intros p H1 H2 H3 H4 H5. rewrite Heq. unfold spec_validate, payload_rules.
  rewrite H5, first_failure_app. simpl app. rewrite !first_failure_cons, H1, H2, H3, H4.
  reflexivity.
Qed.

Lemma validator_first_failing_rule_witness :
  is_nonnull_object (frame []) = true /\ validateDetectionPayload (frame []) = VOk.
Proof.
  split; [reflexivity|].
  apply (proj2 validator_first_failing_rule); reflexivity.
Defined.

(** ** C1: broadcast to everyone else, stamped with the sender's identity *)

(** The messages the relay passes on: parseable into a value with a
    [type] property, and, for [detection], with a valid payload. *)
Definition relayable (data : jsval) : bool :=
  match prop data "type" with
  | None => false
  | Some ty =>
      if is_detection ty then
        match validateDetectionPayload (unwrap_payload data) with VOk => true | _ => false end
      else true
  end.

Lemma on_message_relayable (peers : registry) (is_open : socket -> bool) (A : string)
    (wsA : socket) (now : Q) (data : jsval) :
  relayable data = true ->
  exists ty, on_message peers is_open A wsA now (Some data) = broadcast peers is_open A ty data now.
Proof.
  unfold relayable, on_message. destruct (prop data "type") as [ty|]; [|discriminate].
  destruct (is_detection ty).
  - destruct (validateDetectionPayload (unwrap_payload data)); [|discriminate].
    intros _. exists ty. reflexivity.
  - intros _. exists ty. reflexivity.
Qed.

Lemma broadcast_targets (peers : registry) (is_open : socket -> bool) (A : string)
    (ty data : jsval) (now : Q) :
  (forall id s, In (id, s) peers -> is_open s = true) ->
  map fst (broadcast peers is_open A ty data now)
  = map snd (filter (fun kv => negb (String.eqb (fst kv) A)) peers).
Proof.
  induction peers as [|[id s] peers IH]; intro Hopen; [reflexivity|].
  unfold broadcast in *. simpl flat_map. simpl filter.
  rewrite (Hopen id s (or_introl eq_refl)), andb_true_r.
  destruct (negb (String.eqb id A)); simpl;
    rewrite IH by (intros; eapply Hopen; right; eassumption); reflexivity.
Qed.

Lemma broadcast_from (peers : registry) (is_open : socket -> bool) (A : string)
    (ty data : jsval) (now : Q) :
  Forall (fun o => out_from (snd o) = Some A) (broadcast peers is_open A ty data now).
Proof.
  induction peers as [|[id s] peers IH]; [constructor|].
  unfold broadcast in *. simpl flat_map.
  destruct (negb (String.eqb id A) && is_open s); [|exact IH].
  simpl. constructor; [reflexivity|exact IH].
Qed.

Lemma filter_other_length (A : string) (peers : registry) :
  NoDup (map fst peers) -> In A (map fst peers) ->
  List.length (filter (fun kv => negb (String.eqb (fst kv) A)) peers) = List.length peers - 1.
Proof.
  induction peers as [|[id s] peers IH]; simpl; intros Hnd Hin; [contradiction|].
  inversion Hnd as [|? ? Hnotin Hnd']; subst.
  destruct (String.eqb_spec id A) as [->|Hne]; simpl.
  - assert (Hall : filter (fun kv => negb (String.eqb (fst kv) A)) peers = peers).
    { clear IH Hnd Hnd' Hin. induction peers as [|[k v] peers IHp]; [reflexivity|].
      simpl in *. destruct (String.eqb_spec k A) as [->|]; [tauto|].
      simpl. rewrite IHp by tauto. reflexivity. }
    rewrite Hall. lia.
  - destruct Hin as [Heq|Hin]; [congruence|].
    rewrite IH by assumption.
    destruct peers; simpl in *; [contradiction|lia].
Qed.

Lemma snd_unique {K V} (l : list (K * V)) (a b : K) (v : V) :
  NoDup (map snd l) -> In (a, v) l -> In (b, v) l -> a = b.
Proof.
  induction l as [|[k w] l IH]; simpl; intros Hnd Ha Hb; [contradiction|].
  inversion Hnd as [|? ? Hnotin Hnd']; subst.
  destruct Ha as [Ha|Ha], Hb as [Hb|Hb].
  - congruence.
  - inversion Ha; subst. exfalso. apply Hnotin. apply (in_map snd) in Hb. exact Hb.
  - inversion Hb; subst. exfalso. apply Hnotin. apply (in_map snd) in Ha. exact Ha.
  - eauto.
Qed.

(** C1. For a registry of distinct identities on distinct open sockets
    containing the sender [A] on socket [wsA], a relayable message from [A]
    is sent to exactly the sockets of the other identities, in registry
    order ([N - 1] sends for [N] entries), never to [wsA], and every copy
    carries [from = A], whatever the message itself contains. *)
Theorem relay_broadcast_to_others (peers : registry) (is_open : socket -> bool)
    (A : string) (wsA : socket) (now : Q) (data : jsval) :
  NoDup (map fst peers) -> NoDup (map snd peers) -> In (A, wsA) peers ->
  (forall id s, In (id, s) peers -> is_open s = true) ->
  relayable data = true ->
  let out := on_message peers is_open A wsA now (Some data) in
  map fst out = map snd (filter (fun kv => negb (String.eqb (fst kv) A)) peers) /\
  List.length out = List.length peers - 1 /\
  ~ In wsA (map fst out) /\
  Forall (fun o => out_from (snd o) = Some A) out.
Proof.
  intros Hk Hv HA Hopen Hrel out.
  destruct (on_message_relayable peers is_open A wsA now data Hrel) as [ty Hout].
  subst out. rewrite Hout.
  assert (Ht := broadcast_targets peers is_open A ty data now Hopen).
  split; [exact Ht|]. split.
  { rewrite <- (length_map fst), Ht, length_map.
    apply filter_other_length; [exact Hk|]. apply (in_map fst) in HA. exact HA. }
  split; [|apply broadcast_from].
  rewrite Ht. intro Hin. apply in_map_iff in Hin as [[id s] [Hs Hin]].
  simpl in Hs. subst s. apply filter_In in Hin as [Hin Hne]. simpl in Hne.
  rewrite (snd_unique peers id A wsA Hv Hin HA), String.eqb_refl in Hne. discriminate.
Qed.

Definition chat_msg : jsval :=
  JObj [("type", JStr "chat"); ("from", JStr "forged"); ("payload", JObj [("text", JStr "hi")])].

Lemma relay_broadcast_to_others_witness :
  NoDup (map fst [("a", 0%nat); ("b", 1%nat); ("c", 2%nat)]) /\
  on_message [("a", 0%nat); ("b", 1%nat); ("c", 2%nat)] (fun _ => true) "b" 1%nat 0%Q
    (Some chat_msg)
  = [(0%nat, OutForward (JStr "chat") "b" (JObj [("text", JStr "hi")]));
     (2%nat, OutForward (JStr "chat") "b" (JObj [("text", JStr "hi")]))] /\
  List.length (on_message [("a", 0%nat); ("b", 1%nat); ("c", 2%nat)] (fun _ => true)
                 "b" 1%nat 0%Q (Some chat_msg)) = 2%nat.
Proof.
  assert (Hk : NoDup (map fst [("a", 0%nat); ("b", 1%nat); ("c", 2%nat)])).
  { simpl. repeat constructor; simpl; intuition discriminate. }
  assert (Hv : NoDup (map snd [("a", 0%nat); ("b", 1%nat); ("c", 2%nat)])).
  { simpl. repeat constructor; simpl; intuition discriminate. }
  split; [exact Hk|]. split; [reflexivity|].
  destruct (relay_broadcast_to_others [("a", 0%nat); ("b", 1%nat); ("c", 2%nat)]
              (fun _ => true) "b" 1%nat 0%Q chat_msg Hk Hv
              (or_intror (or_introl eq_refl)) (fun _ _ _ => eq_refl) eq_refl)
    as [_ [Hlen _]].
  exact Hlen.
Defined.

(** ** C9: identities and the registry *)

(** C9 as stated fails: nothing stops two live connections from drawing
    the same token. Then both are live under one identity, the registry
    holds only the second socket, and closing the first one removes the
    entry of the second, still live, socket. *)
Lemma duplicate_token_shares_identity :
  server_run server_init [Accept "k3x9"; Accept "k3x9"]
  = Some (mkServer [("k3x9", 1)] [("k3x9", true); ("k3x9", true)]) /\
  server_run server_init [Accept "k3x9"; Accept "k3x9"; Close 0]
  = Some (mkServer [] [("k3x9", false); ("k3x9", true)]).
Proof. split; reflexivity. Qed.

Definition registry_inv (st : server) : Prop :=
  (forall id s, In (id, s) (peers st) <-> nth_error (conns st) s = Some (id, true)) /\
  NoDup (map fst (peers st)) /\
  NoDup (live_ids st).

Lemma map_set_absent (k : string) (v : socket) (m : registry) :
  ~ In k (map fst m) -> map_set k v m = m ++ [(k, v)].
Proof.
  induction m as [|[k' v'] m IH]; simpl; intro Hn; [reflexivity|].
  destruct (String.eqb_spec k k') as [->|]; [tauto|]. rewrite IH by tauto. reflexivity.
Qed.

Lemma map_delete_In (k : string) (m : registry) : NoDup (map fst m) ->
  forall k' v, In (k', v) (map_delete k m) <-> In (k', v) m /\ k' <> k.
Proof.
  induction m as [|[k0 v0] m IH]; simpl; intros Hnd k' v; [tauto|].
  inversion Hnd as [|? ? Hnotin Hnd']; subst.
  destruct (String.eqb_spec k k0) as [->|Hne].
  - split.
    + intro Hin. split; [tauto|]. intros ->. apply Hnotin. apply (in_map fst) in Hin. exact Hin.
    + intros [[Heq|Hin] Hne]; [inversion Heq; congruence|exact Hin].
  - simpl. rewrite IH by assumption. split.
    + intros [Heq|[Hin Hne']]; [inversion Heq; subst; split; [left; reflexivity|congruence]|tauto].
    + intros [[Heq|Hin] Hne']; [left; exact Heq|right; tauto].
Qed.

Lemma map_delete_keys_incl (k : string) (m : registry) :
  incl (map fst (map_delete k m)) (map fst m).
Proof.
  induction m as [|[k0 v0] m IH]; simpl; [apply incl_refl|].
  destruct (String.eqb k k0); simpl.
  - apply incl_tl, incl_refl.
  - apply incl_cons; [left; reflexivity|]. apply incl_tl, IH.
Qed.

Lemma map_delete_NoDup (k : string) (m : registry) :
  NoDup (map fst m) -> NoDup (map fst (map_delete k m)).
Proof.
  induction m as [|[k0 v0] m IH]; simpl; intro Hnd; [constructor|].
  inversion Hnd as [|? ? Hnotin Hnd']; subst.
  destruct (String.eqb k k0); [exact Hnd'|]. simpl. constructor; [|auto].
  intro Hin. apply Hnotin, (map_delete_keys_incl k m), Hin.
Qed.

Lemma fst_unique (m : registry) (k : string) (a b : socket) :
  NoDup (map fst m) -> In (k, a) m -> In (k, b) m -> a = b.
Proof.
  induction m as [|[k0 v0] m IH]; simpl; intros Hnd Ha Hb; [contradiction|].
  inversion Hnd as [|? ? Hnotin Hnd']; subst.
  destruct Ha as [Ha|Ha], Hb as [Hb|Hb].
  - congruence.
  - inversion Ha; subst. exfalso. apply Hnotin. apply (in_map fst) in Hb. exact Hb.
  - inversion Hb; subst. exfalso. apply Hnotin. apply (in_map fst) in Ha. exact Ha.
  - eauto.
Qed.

Lemma nth_error_set_nth {A} (l : list A) (n m : nat) (x : A) :
  n < List.length l ->
  nth_error (set_nth l n x) m = if Nat.eqb m n then Some x else nth_error l m.
Proof.
  revert n m. induction l as [|y l IH]; simpl; intros n m Hn; [lia|].
  destruct n, m; simpl; try reflexivity.
  apply IH. lia.
Qed.

Lemma length_set_nth {A} (l : list A) (n : nat) (x : A) :
  List.length (set_nth l n x) = List.length l.
Proof. revert n. induction l; destruct n; simpl; auto. Qed.

Lemma live_set_false_incl (l : list (string * bool)) (n : nat) (x : string) :
  incl (map fst (filter snd (set_nth l n (x, false)))) (map fst (filter snd l)).
Proof.
  revert n. induction l as [|[y b] l IH]; intro n; simpl; [apply incl_refl|].
  destruct n; simpl.
  - destruct b; simpl; [apply incl_tl|]; apply incl_refl.
  - destruct b; simpl; [|apply IH]. apply incl_cons; [left; reflexivity|]. apply incl_tl, IH.
Qed.

Lemma live_set_false_NoDup (l : list (string * bool)) (n : nat) (x : string) :
  NoDup (map fst (filter snd l)) -> NoDup (map fst (filter snd (set_nth l n (x, false)))).
Proof.
  revert n. induction l as [|[y b] l IH]; intros n Hnd; simpl; [constructor|].
  destruct n; simpl in *.
  - destruct b; simpl in *; [inversion Hnd; assumption|assumption].
  - destruct b; simpl in *; [|auto].
    inversion Hnd as [|? ? Hnotin Hnd']; subst. constructor; [|auto].
    intro Hin. apply Hnotin, (live_set_false_incl l n x), Hin.
Qed.

Lemma registry_inv_init : registry_inv server_init.
Proof. split; [|split]; simpl; [|constructor|constructor]. intros id s. destruct s; simpl; split; intro H; (contradiction || discriminate). Qed.

Lemma registry_inv_step (st st' : server) (e : server_event) :
  registry_inv st ->
  (match e with Accept t => ~ In t (live_ids st) | Close _ => True end) ->
  server_step st e = Some st' -> registry_inv st'.
Proof.
  intros [Hiff [Hk Hl]] Hfresh Hstep. destruct e as [t|c]; simpl in Hstep.
  - inversion Hstep; subst st'; clear Hstep.
    assert (Hnk : ~ In t (map fst (peers st))).
    { intro Hin. apply in_map_iff in Hin as [[k s] [Hks Hin]]. simpl in Hks; subst k.
      apply Hiff in Hin. apply Hfresh. unfold live_ids. apply in_map_iff.
      exists (t, true). split; [reflexivity|]. apply filter_In. split; [|reflexivity].
      eapply nth_error_In; exact Hin. }
    unfold registry_inv, live_ids in *; simpl.
    rewrite map_set_absent by exact Hnk.
    split; [|split].
    + intros id s. rewrite in_app_iff. simpl.
      destruct (Nat.lt_ge_cases s (List.length (conns st))) as [Hlt|Hge].
      * rewrite nth_error_app1 by exact Hlt. rewrite <- Hiff.
        split; [intros [H|[H|H]]; [exact H| inversion H; lia|contradiction]|tauto].
      * rewrite nth_error_app2 by exact Hge.
        destruct (Nat.eq_dec s (List.length (conns st))) as [->|Hne].
        -- rewrite Nat.sub_diag. simpl. split.
           ++ intros [H|[H|H]]; [|inversion H; reflexivity|contradiction].
              apply Hiff in H.
              assert (Hn : nth_error (conns st) (List.length (conns st)) <> None) by congruence.
              apply nth_error_Some in Hn. lia.
           ++ intro H. inversion H; subst. right; left; reflexivity.
        -- assert (Hs : exists k, s - List.length (conns st) = S k) by (exists (s - List.length (conns st) - 1); lia).
           destruct Hs as [k Hk']. rewrite Hk'. simpl. rewrite nth_error_nil. split; [|discriminate].
           intros [H|[H|H]]; [|inversion H; lia|contradiction].
           apply Hiff in H. assert (nth_error (conns st) s <> None) by congruence.
           apply nth_error_Some in H0. lia.
    + rewrite map_app. simpl. apply NoDup_app; [exact Hk|repeat constructor; simpl; tauto|].
      intros x Hx Hx'. simpl in Hx'. destruct Hx' as [->|[]]. contradiction.
    + rewrite filter_app, map_app. simpl. apply NoDup_app; [exact Hl|repeat constructor; simpl; tauto|].
      intros x Hx Hx'. simpl in Hx'. destruct Hx' as [->|[]]. contradiction.
  - destruct (nth_error (conns st) c) as [[peerId [|]]|] eqn:Hc; try discriminate.
    inversion Hstep; subst st'; clear Hstep.
    assert (Hlen : c < List.length (conns st)) by (apply nth_error_Some; congruence).
    unfold registry_inv, live_ids in *; simpl.
    split; [|split].
    + intros id s. rewrite (map_delete_In peerId (peers st) Hk), Hiff,
        (nth_error_set_nth (conns st) c s (peerId, false) Hlen).
      destruct (Nat.eqb_spec s c) as [->|Hne].
      * rewrite Hc. split; [intros [H Hne]; inversion H; congruence|discriminate].
      * split; [tauto|]. intro H. split; [exact H|]. intros ->.
        apply Hne. apply Hiff in H. apply Hiff in Hc. exact (fst_unique _ _ _ _ Hk H Hc).
    + apply map_delete_NoDup, Hk.
    + apply live_set_false_NoDup, Hl.
Qed.

(** C9 (amended). Identities are random tokens drawn without a check
    against the live ones. Whenever every accepted token differs from the
    identities live at that moment, the registry maps each identity to
    exactly one socket, the live connection holding it, and the live
    identities are pairwise distinct. *)
Theorem registry_one_live_socket_per_identity (evs : list server_event) (st : server) :
  fresh_tokens server_init evs ->
  server_run server_init evs = Some st ->
  (forall id s, In (id, s) (peers st) <-> nth_error (conns st) s = Some (id, true)) /\
  NoDup (map fst (peers st)) /\
  NoDup (live_ids st).
Proof.
  assert (Hgen : forall st0, registry_inv st0 -> fresh_tokens st0 evs ->
            server_run st0 evs = Some st -> registry_inv st).
  { induction evs as [|e evs IH]; simpl; intros st0 Hinv Hfr Hrun.
    - inversion Hrun; subst; exact Hinv.
    - destruct (server_step st0 e) as [st1|] eqn:Hs; [|discriminate].
      destruct Hfr as [Hfe Hfr].
      apply (IH st1); [|exact Hfr|exact Hrun].
      exact (registry_inv_step st0 st1 e Hinv Hfe Hs). }
  intros Hfr Hrun. exact (Hgen server_init registry_inv_init Hfr Hrun).
Qed.

Lemma registry_one_live_socket_per_identity_witness :
  fresh_tokens server_init [Accept "a1"; Accept "b2"; Close 0; Accept "a1"] /\
  server_run server_init [Accept "a1"; Accept "b2"; Close 0; Accept "a1"]
  = Some (mkServer [("b2", 1); ("a1", 2)] [("a1", false); ("b2", true); ("a1", true)]) /\
  NoDup (map fst [("b2", 1); ("a1", 2)]).
Proof.
  assert (Hfr : fresh_tokens server_init [Accept "a1"; Accept "b2"; Close 0; Accept "a1"]).
  { simpl. repeat split; intuition discriminate. }
  split; [exact Hfr|]. split; [reflexivity|].
  exact (proj1 (proj2 (registry_one_live_socket_per_identity _ _ Hfr eq_refl))).
Defined.

(** ** Client connection lifecycle *)

Module ConnFacts.
Import Conn.

Definition conn_inv (h : handler) : Prop :=
  (connected h = true -> reconnectAttempts h = 0) /\
  (reconnectAttempts h <= 1 \/ reconnectAttempts h = maxReconnectAttempts) /\
  Forall (fun d => d = reconnectDelay) (timers h).

Lemma Forall_remove_nth {A} (P : A -> Prop) (l : list A) (n : nat) :
  Forall P l -> Forall P (remove_nth l n).
Proof.
  revert n. induction l as [|x l IH]; intros n H; destruct n; simpl; auto.
  - inversion H; assumption.
  - inversion H; subst. constructor; auto.
Qed.

Lemma establishConnection_fields (h : handler) :
  connected (establishConnection h) = connected h /\
  reconnectAttempts (establishConnection h) = reconnectAttempts h /\
  timers (establishConnection h) = timers h.
Proof. unfold establishConnection. destruct (_ || _); simpl; auto. Qed.

Lemma handleDisconnect_inv (h : handler) : conn_inv h -> conn_inv (handleDisconnect h).
Proof.
  intros [H1 [H2 H3]]. unfold handleDisconnect.
  destruct (connected h) eqn:Hc; simpl; [|split; [rewrite Hc; discriminate|auto]].
  rewrite (H1 eq_refl). split; [discriminate|]. split; [left; auto|]. cbv [Nat.ltb Nat.leb maxReconnectAttempts].
  simpl. apply Forall_app; split; [exact H3|]. constructor; [reflexivity|constructor].
Qed.

Lemma conn_inv_step (h h' : handler) (e : event) :
  conn_inv h -> step h e = Some h' -> conn_inv h'.
Proof.
  intros Hinv Hs. destruct Hinv as [H1 [H2 H3]].
  destruct e; simpl in Hs.
  - inversion Hs; subst h'. unfold connect.
    destruct (establishConnection_fields
                (match ws h with
                 | Some i => mkHandler (connected h) (reconnectAttempts h) None
                               (close_sock (sockets h) i) (timers h)
                 | None => h end)) as [E1 [E2 E3]].
    unfold conn_inv. rewrite E1, E2, E3. destruct (ws h); simpl; auto.
  - inversion Hs; subst h'. unfold conn_inv, disconnect; simpl.
    split; [discriminate|]. split; [right; reflexivity|exact H3].
  - destruct (nth_error (sockets h) i) as [[]|]; try discriminate.
    inversion Hs; subst h'. unfold conn_inv, onopen; simpl. auto.
  - destruct (nth_error (sockets h) i) as [[]|]; try discriminate;
      inversion Hs; subst h'; apply handleDisconnect_inv; split; auto.
  - destruct (nth_error (sockets h) i) as [[]|]; try discriminate;
      inversion Hs; subst h'; apply handleDisconnect_inv; split; auto.
  - destruct (nth_error (timers h) j); try discriminate.
    inversion Hs; subst h'.
    destruct (establishConnection_fields
                (mkHandler (connected h) (reconnectAttempts h) (ws h) (sockets h)
                   (remove_nth (timers h) j))) as [E1 [E2 E3]].
    unfold conn_inv. rewrite E1, E2, E3. simpl.
    split; [exact H1|]. split; [exact H2|]. apply Forall_remove_nth, H3.
Qed.

(** Every reachable handler state: connected implies a zero attempt count;
    the attempt count is at most 1 unless [disconnect()] set it to the
    maximum; every pending backoff timer has the base delay. The backoff
    never grows: a failed reconnection attempt schedules nothing. *)
Lemma conn_inv_reachable (h : handler) : reachable h -> conn_inv h.
Proof.
  intros [evs Hrun].
  assert (Hgen : forall h0, conn_inv h0 -> run h0 evs = Some h -> conn_inv h).
  { clear Hrun. induction evs as [|e evs IH]; simpl; intros h0 Hinv Hr.
    - inversion Hr; subst; exact Hinv.
    - destruct (step h0 e) as [h1|] eqn:Hs; [|discriminate].
      exact (IH h1 (conn_inv_step h0 h1 e Hinv Hs) Hr). }
  apply (Hgen init); [|exact Hrun].
  split; [intros _; reflexivity|]. split; [left; auto|constructor].
Qed.

(** A timer that fires after [disconnect()] opens no socket as long as
    nothing resets the attempt count in between. *)
Lemma fire_after_disconnect_opens_nothing (h h' : handler) (j : nat) :
  step (disconnect h) (EFire j) = Some h' -> sockets h' = sockets (disconnect h).
Proof.
  unfold step. destruct (nth_error (timers (disconnect h)) j); intro H; [|discriminate H].
  inversion H; subst h'. reflexivity.
Qed.

End ConnFacts.

(** C4 fails on the code: after a connection loss the handler makes one
    reconnection attempt after [reconnectDelay * 2^0]; when that attempt
    fails (error and close before open), [handleDisconnect] returns at once
    because [connected] is already false, so attempt 2 (after
    [reconnectDelay * 2^1]) is never scheduled and no timer is left.
    Once the attempt count is at the maximum (only [disconnect()] puts it
    there), an explicit [connect(url)] opens no socket either: nothing
    resets the count. *)
Theorem reconnect_stops_after_one_failed_attempt :
  Conn.run Conn.init [Conn.EConnect; Conn.EOpen 0; Conn.EError 0; Conn.EClose 0;
                      Conn.EFire 0; Conn.EError 1; Conn.EClose 1]
  = Some (Conn.mkHandler false 1 (Some 1) [Conn.Closed; Conn.Closed] []) /\
  Nat.ltb 1 Conn.maxReconnectAttempts = true /\
  Conn.run Conn.init [Conn.EConnect; Conn.EOpen 0; Conn.EDisconnect; Conn.EConnect]
  = Some (Conn.mkHandler false 5 None [Conn.Closing] []).
Proof. split; [|split]; reflexivity. Qed.

(** C5 fails on the code: [connect()] during a backoff window, followed by
    the timer firing while the new socket is still connecting, leaves that
    socket orphaned ([this.ws] is overwritten without closing it).
    [disconnect()] closes only [this.ws]; when the orphan opens it sets
    [connected] and resets the attempt count, and its later loss schedules a
    backoff timer whose firing opens a new socket after [disconnect()]. *)
Theorem reconnect_after_disconnect_via_orphan_socket :
  Conn.run Conn.init [Conn.EConnect; Conn.EOpen 0; Conn.EClose 0; Conn.EConnect;
                      Conn.EFire 0; Conn.EDisconnect]
  = Some (Conn.mkHandler false 5 None [Conn.Closed; Conn.Connecting; Conn.Closing] []) /\
  Conn.run (Conn.mkHandler false 5 None [Conn.Closed; Conn.Connecting; Conn.Closing] [])
    [Conn.EOpen 1; Conn.EClose 1; Conn.EFire 0]
  = Some (Conn.mkHandler false 1 (Some 3)
            [Conn.Closed; Conn.Closed; Conn.Closing; Conn.Connecting] []).
Proof. split; reflexivity. Qed.

(** C10. In every reachable connected state, an [error] event followed by
    the [close] event of the same live socket increments the attempt count
    once (from 0 to 1) and appends exactly one backoff timer, with delay
    [reconnectDelay * 2^0]; the second [handleDisconnect] call changes
    nothing since [connected] is already false. *)
Theorem error_then_close_single_backoff (h : Conn.handler) (i : nat) (st : Conn.sock_state) :
  Conn.reachable h -> Conn.connected h = true ->
  nth_error (Conn.sockets h) i = Some st -> st <> Conn.Closed ->
  exists h', Conn.run h [Conn.EError i; Conn.EClose i] = Some h' /\
    Conn.reconnectAttempts h' = S (Conn.reconnectAttempts h) /\
    Conn.reconnectAttempts h' = 1 /\
    Conn.timers h' = Conn.timers h ++ [Conn.backoff 1] /\
    Conn.connected h' = false.
Proof.
  intros Hr Hc Hi Hst.
  destruct (ConnFacts.conn_inv_reachable h Hr) as [H0 _].
  specialize (H0 Hc).
  destruct h as [c a w ss ts]; simpl in *. subst c a.
  destruct st; try (exfalso; apply Hst; reflexivity);
    eexists; simpl; rewrite ?Hi; simpl; rewrite ?Hi; simpl;
    (split; [reflexivity|]); repeat split.
Qed.

Lemma error_then_close_single_backoff_witness :
  Conn.reachable (Conn.mkHandler true 0 (Some 0) [Conn.Open] []) /\
  exists h', Conn.run (Conn.mkHandler true 0 (Some 0) [Conn.Open] [])
               [Conn.EError 0; Conn.EClose 0] = Some h' /\
             Conn.reconnectAttempts h' = 1 /\ Conn.timers h' = [Conn.backoff 1].
Proof.
  assert (Hr : Conn.reachable (Conn.mkHandler true 0 (Some 0) [Conn.Open] [])).
  { exists [Conn.EConnect; Conn.EOpen 0]. reflexivity. }
  split; [exact Hr|].
  destruct (error_then_close_single_backoff _ 0 Conn.Open Hr eq_refl eq_refl
              ltac:(discriminate)) as [h' [Hrun [_ [Ha [Ht _]]]]].
  exists h'. split; [exact Hrun|]. split; [exact Ha|]. rewrite Ht. reflexivity.
Defined.

(** ** Handshake-signal path *)

Definition signal_msg (from : string) (payload : jsval) : jsval :=
  JObj [("type", JStr "signal"); ("from", JStr from); ("payload", payload)].

Definition id_msg (id : string) : jsval := JObj [("type", JStr "id"); ("id", JStr id)].

Definition offer : jsval := JObj [("type", JStr "offer"); ("sdp", JStr "v=0")].

Example double_wrapped_offer_unwrapped :
  Sig.incoming_of (signal_msg "x" (JObj [("payload", JObj [("payload", offer)])])) = offer.
Proof. reflexivity. Qed.

(** C6 as stated fails by design: the validity test also accepts a
    [renegotiate] key, so a payload with none of [sdp], [type] and
    [candidate] reaches [peer.signal]. *)
Lemma renegotiate_signal_reaches_peer :
  Sig.handleMessage (Sig.mkSig (Some 0) 1 None (JStr "me") [])
    (signal_msg "other" (JObj [("renegotiate", JBool true)]))
  = Sig.mkSig (Some 0) 1 None (JStr "me") [(0, JObj [("renegotiate", JBool true)])].
Proof. reflexivity. Qed.

(** C6 (amended). Take a [signal] message that arrives while the
    peer-link object exists. Suppose its payload, unwrapped up to three
    levels, is not an object carrying one of the [sdp], [type],
    [candidate] or [renegotiate] keys. Then it leaves the handler
    unchanged, and nothing is passed to [peer.signal]. Suppose instead
    that the message comes from an identity other than the client's own
    and its unwrapped payload is such an object; a payload whose only
    handshake key is [renegotiate] is one. Then that payload is passed to
    [peer.signal] exactly once, and nothing else changes. *)
Theorem invalid_signal_discarded_when_peer_exists (s : Sig.sig_state) (m : jsval) (p : nat) :
  Sig.peer s = Some p -> field m "type" = JStr "signal" ->
  (Sig.isValidSignal (Sig.incoming_of m) = false -> Sig.handleMessage s m = s) /\
  (strict_eq (field m "from") (Sig.clientId s) = false ->
   Sig.isValidSignal (Sig.incoming_of m) = true ->
   Sig.handleMessage s m =
     Sig.mkSig (Sig.peer s) (Sig.peers_made s) (Sig.pendingSignal s) (Sig.clientId s)
       (Sig.applied s ++ [(p, Sig.incoming_of m)])).
Proof.
  intros Hp Hty. unfold Sig.handleMessage. rewrite Hty. simpl.
  unfold Sig.on_signal. split.
  - intro Hv. destruct (negb (strict_eq (field m "from") (Sig.clientId s))); [|reflexivity].
    destruct (negb (truthy (Sig.incoming_of m))); [reflexivity|].
    rewrite Hp, Hv. reflexivity.
  - intros Hf Hv. rewrite Hf. simpl.
    assert (Ht : truthy (Sig.incoming_of m) = true).
    { unfold Sig.isValidSignal in Hv. destruct (truthy (Sig.incoming_of m)); [reflexivity|].
      discriminate Hv. }
    rewrite Ht, Hp, Hv. reflexivity.
Qed.

Lemma invalid_signal_discarded_when_peer_exists_witness :
  Sig.handleMessage (Sig.mkSig (Some 0) 1 None (JStr "me") [])
    (signal_msg "other" (JObj [("foo", JNum 1)]))
  = Sig.mkSig (Some 0) 1 None (JStr "me") [] /\
  Sig.handleMessage (Sig.mkSig (Some 0) 1 None (JStr "me") [])
    (signal_msg "other" (JObj [("renegotiate", JBool true)]))
  = Sig.mkSig (Some 0) 1 None (JStr "me") [(0, JObj [("renegotiate", JBool true)])].
Proof.
  split.
  - apply (proj1 (invalid_signal_discarded_when_peer_exists
                    (Sig.mkSig (Some 0) 1 None (JStr "me") [])
                    (signal_msg "other" (JObj [("foo", JNum 1)])) 0 eq_refl eq_refl)).
    reflexivity.
  - exact (proj2 (invalid_signal_discarded_when_peer_exists
                    (Sig.mkSig (Some 0) 1 None (JStr "me") [])
                    (signal_msg "other" (JObj [("renegotiate", JBool true)])) 0 eq_refl eq_refl)
             eq_refl eq_refl).
Defined.

(** C7 as stated fails. A [signal] message is not always buffered before
    the peer exists. Its unwrapped payload may be missing or falsy (here
    [null]); then it is dropped with a warning. It may also carry the
    client's own identity in [from]; then it is ignored. *)
Lemma null_signal_not_buffered :
  Sig.handleMessage Sig.init (signal_msg "x" JNull) = Sig.init /\
  Sig.handleMessage (Sig.mkSig None 0 None (JStr "me") []) (signal_msg "me" offer)
  = Sig.mkSig None 0 None (JStr "me") [].
Proof. split; reflexivity. Qed.

Module SigFacts.
Import Sig.

Definition replay_inv (A : list (nat * jsval)) (x : jsval) (s : sig_state) : Prop :=
  (peer s = None /\ pendingSignal s = Some x /\ truthy x = true /\ applied s = A) \/
  (pendingSignal s = None /\ exists p, applied s = A ++ [(p, x)]).

Lemma createPeer_replay (A : list (nat * jsval)) (x : jsval) (s : sig_state) :
  replay_inv A x s -> replay_inv A x (createPeer s).
Proof.
  unfold createPeer.
  intros [[Hp [Hx [Ht Ha]]]|[Hx [p Ha]]].
  - rewrite Hp, Hx, Ht. right. split; [reflexivity|]. exists (peers_made s). simpl. congruence.
  - destruct (peer s); [right; eauto|]. rewrite Hx. right. simpl. eauto.
Qed.

Lemma step_replay (A : list (nat * jsval)) (x : jsval) (s : sig_state) (e : event) :
  is_signal_msg e = false -> replay_inv A x s -> replay_inv A x (step s e).
Proof.
  intros Hns Hinv. destruct e as [m| | |]; simpl.
  - unfold handleMessage. simpl in Hns.
    destruct (field m "type") as [| | | |t| |]; try exact Hinv.
    simpl in Hns. rewrite Hns.
    destruct (String.eqb t "id"); [|exact Hinv].
    apply createPeer_replay.
    destruct Hinv as [[Hp [Hx [Ht Ha]]]|[Hx [p Ha]]]; [left|right]; simpl; eauto.
  - destruct Hinv as [[Hp [Hx [Ht Ha]]]|[Hx [p Ha]]]; [left|right]; simpl; eauto.
  - apply createPeer_replay, Hinv.
  - destruct Hinv as [[Hp [Hx [Ht Ha]]]|[Hx [p Ha]]]; [left|right]; simpl; eauto.
Qed.

Lemma run_replay (A : list (nat * jsval)) (x : jsval) (evs : list event) : forall s,
  forallb (fun e => negb (is_signal_msg e)) evs = true ->
  replay_inv A x s -> replay_inv A x (run s evs).
Proof.
  induction evs as [|e evs IH]; intros s Hall Hinv; [exact Hinv|].
  simpl in Hall. apply andb_prop in Hall as [He Hall].
  apply IH; [exact Hall|]. apply step_replay; [|exact Hinv].
  destruct (is_signal_msg e); [discriminate|reflexivity].
Qed.

End SigFacts.

(** C7 (amended). The unwrapped payload of a [signal] message is taken
    from [payload], or from [data] when [payload] is absent, and is then
    unwrapped up to three levels. A [signal] message whose unwrapped
    payload is falsy, or whose [from] is the client's own identity, leaves
    the handler unchanged. Now take a [signal] message from another
    identity whose unwrapped payload [x] is present (truthy) and that
    arrives while no peer-link object exists. It is buffered as the only
    pending signal, replacing any earlier one. Through every later sequence
    of events that brings no further [signal] message, one of two things
    holds. Either no peer has been constructed and [x] is still pending.
    Or [x] has been passed to [peer.signal] exactly once, when the peer was
    constructed, and is no longer pending. So once a peer exists, [x] has
    been applied exactly once. *)
Theorem pending_signal_applied_once :
  (forall (s : Sig.sig_state) (m : jsval),
     field m "type" = JStr "signal" ->
     truthy (Sig.incoming_of m) = false \/ strict_eq (field m "from") (Sig.clientId s) = true ->
     Sig.handleMessage s m = s) /\
  (forall (s : Sig.sig_state) (m : jsval),
     Sig.peer s = None -> field m "type" = JStr "signal" ->
     strict_eq (field m "from") (Sig.clientId s) = false ->
     truthy (Sig.incoming_of m) = true ->
     let x := Sig.incoming_of m in
     let s1 := Sig.handleMessage s m in
     Sig.pendingSignal s1 = Some x /\
     forall evs, forallb (fun e => negb (Sig.is_signal_msg e)) evs = true ->
       let s2 := Sig.run s1 evs in
       (Sig.peer s2 = None /\ Sig.pendingSignal s2 = Some x /\ Sig.applied s2 = Sig.applied s) \/
       (Sig.pendingSignal s2 = None /\ exists p, Sig.applied s2 = Sig.applied s ++ [(p, x)])).
Proof.
  split.
  - intros s m Hty Hd. unfold Sig.handleMessage. rewrite Hty. simpl.
    unfold Sig.on_signal.
    destruct Hd as [Ht|Hf].
    + destruct (negb (strict_eq (field m "from") (Sig.clientId s))); [|reflexivity].
      rewrite Ht. reflexivity.
    + rewrite Hf. reflexivity.
  - intros s m Hp Hty Hfrom Ht x s1.
    assert (Hs1 : s1 = Sig.mkSig None (Sig.peers_made s) (Some x) (Sig.clientId s) (Sig.applied s)).
    { subst s1 x. unfold Sig.handleMessage. rewrite Hty. simpl. unfold Sig.on_signal.
      rewrite Hfrom, Ht, Hp. reflexivity. }
    split; [rewrite Hs1; reflexivity|].
    intros evs Hall s2.
    assert (Hinv : SigFacts.replay_inv (Sig.applied s) x s1).
    { left. rewrite Hs1. simpl. auto. }
    destruct (SigFacts.run_replay (Sig.applied s) x evs s1 Hall Hinv)
      as [[H1 [H2 [_ H4]]]|H]; [left; auto|right; exact H].
Qed.

Lemma pending_signal_applied_once_witness :
  Sig.run (Sig.handleMessage Sig.init (signal_msg "x" offer)) [Sig.SMsg (id_msg "me")]
  = Sig.mkSig (Some 0) 1 None (JStr "me") [(0, offer)] /\
  Sig.pendingSignal (Sig.handleMessage Sig.init (signal_msg "x" offer)) = Some offer /\
  Sig.handleMessage Sig.init (JObj [("type", JStr "signal"); ("from", JStr "x"); ("data", JBool false)])
  = Sig.init /\
  Sig.pendingSignal
    (Sig.handleMessage Sig.init (JObj [("type", JStr "signal"); ("from", JStr "x"); ("data", offer)]))
  = Some offer.
Proof.
  split; [reflexivity|]. split.
  - exact (proj1 (proj2 pending_signal_applied_once Sig.init (signal_msg "x" offer)
                    eq_refl eq_refl eq_refl eq_refl)).
  - split.
    + apply (proj1 pending_signal_applied_once); [reflexivity|left; reflexivity].
    + exact (proj1 (proj2 pending_signal_applied_once Sig.init
                      (JObj [("type", JStr "signal"); ("from", JStr "x"); ("data", offer)])
                      eq_refl eq_refl eq_refl eq_refl)).
Defined.

(** ** C8: capture loops *)

(** C8 fails on the code. [sendFrame] tested [inflight] only after drawing
    and encoding the frame: a tick while the previous POST is outstanding
    captures a frame (and leaves two timeouts pending: the one of the
    [if (inflight)] branch and the one of [finally]). [sendSingleFrame] never
    reads its [inflight]: a tick with a frame outstanding captures and sends
    another one. *)
Theorem capture_tick_while_outstanding :
  InferLoop.tick (InferLoop.mkLoop false true true 1 1 1)
  = Some (InferLoop.mkLoop false true true 2 1 2) /\
  LiveLoop.sendSingleFrame (LiveLoop.mkLoop true true false 1 1 1)
  = LiveLoop.mkLoop true true false 2 2 2.
Proof. split; reflexivity. Qed.

(** * Further properties of the relay, the client and the capture loop *)

(** ** Validator: per-element reasons locate the offending element *)

Lemma check_coords_index (i : nat) (d : jsval) (ks : list string) (r : reason) :
  check_coords i d ks = VReject r -> reason_index r = Some i.
Proof.
  induction ks as [|k ks IH]; simpl; [discriminate|].
  destruct (bad_unit (field d k)); [intro H; inversion H; reflexivity|exact IH].
Qed.

Lemma check_detection_index (i : nat) (d : jsval) (r : reason) :
  check_detection i d = VReject r -> reason_index r = Some i.
Proof.
  unfold check_detection.
  destruct (negb (truthy d) || negb (typeof_object d)); [intro H; inversion H; reflexivity|].
  destruct (negb (typeof_string (field d "label"))); [intro H; inversion H; reflexivity|].
  destruct (bad_unit (field d "score")); [intro H; inversion H; reflexivity|].
  destruct (check_coords i d ["xmin"; "ymin"; "xmax"; "ymax"]) eqn:Hc.
  - destruct (negb _); [intro H; inversion H; reflexivity|discriminate].
  - intro H; inversion H; subst. exact (check_coords_index _ _ _ _ Hc).
Qed.

Lemma check_detections_first (ds : list jsval) : forall k r,
  check_detections k ds = VReject r ->
  exists j d, nth_error ds j = Some d /\ check_detection (k + j) d = VReject r /\
    forall j' d', j' < j -> nth_error ds j' = Some d' -> check_detection (k + j') d' = VOk.
Proof.
  induction ds as [|d ds IH]; simpl; intros k r H; [discriminate|].
  destruct (check_detection k d) eqn:Hd.
  - destruct (IH (S k) r H) as [j [d' [Hn [Hc Hb]]]].
    exists (S j), d'. split; [exact Hn|]. split; [rewrite <- Hc; f_equal; lia|].
    intros [|j''] d'' Hlt Hn''; simpl in Hn''.
    + inversion Hn''; subst. rewrite Nat.add_0_r. exact Hd.
    + replace (k + S j'') with (S k + j'') by lia. apply (Hb j''); [lia|exact Hn''].
  - inversion H; subst. exists 0, d. split; [reflexivity|].
    split; [rewrite Nat.add_0_r; exact Hd|]. intros; lia.
Qed.

(** A rejection that names a detection index [i] comes from the element at
    index [i] of the [detections] array; every element before it passes. *)
Theorem validator_reason_locates_element (p : jsval) (r : reason) (i : nat) :
  validateDetectionPayload p = VReject r -> reason_index r = Some i ->
  exists ds d, field p "detections" = JArr ds /\ nth_error ds i = Some d /\
    check_detection i d = VReject r /\
    forall j d', j < i -> nth_error ds j = Some d' -> check_detection j d' = VOk.
Proof.
  unfold validateDetectionPayload.
  destruct (negb (truthy p) || negb (typeof_object p)); [intros H; inversion H; subst; discriminate|].
  destruct (is_undefined (field p "frame_id")); [intros H; inversion H; subst; discriminate|].
  destruct (negb (typeof_number (field p "capture_ts"))); [intros H; inversion H; subst; discriminate|].
  destruct (negb (typeof_number (field p "inference_ts"))); [intros H; inversion H; subst; discriminate|].
  destruct (field p "detections") eqn:Hf; try (intros H; inversion H; subst; discriminate).
  intros H Hi. destruct (check_detections_first xs 0 r H) as [j [d [Hn [Hc Hb]]]].
  simpl in Hc. rewrite (check_detection_index _ _ _ Hc) in Hi. inversion Hi; subst j.
  exists xs, d. split; [reflexivity|]. split; [exact Hn|]. split; [exact Hc|].
  intros j d' Hlt Hn'. exact (Hb j d' Hlt Hn').
Qed.

Definition second_det_bad : jsval :=
  frame [det_ok; JObj [("label", JStr "cup"); ("score", JNum (3#2));
                       ("xmin", JNum 0); ("ymin", JNum 0); ("xmax", JNum 1); ("ymax", JNum 1)]].

Lemma validator_reason_locates_element_witness :
  validateDetectionPayload second_det_bad = VReject (ScoreOutOfRange 1) /\
  exists ds d, field second_det_bad "detections" = JArr ds /\ nth_error ds 1 = Some d /\
               check_detection 1 d = VReject (ScoreOutOfRange 1).
Proof.
  split; [reflexivity|].
  destruct (validator_reason_locates_element second_det_bad (ScoreOutOfRange 1) 1 eq_refl eq_refl)
    as [ds [d [H1 [H2 [H3 _]]]]].
  exists ds, d. auto.
Defined.

(** ** Relay: where copies go and what they carry *)

Lemma broadcast_In (peers : registry) (is_open : socket -> bool) (peerId : string)
    (ty data : jsval) (now : Q) (o : socket * out_msg) :
  In o (broadcast peers is_open peerId ty data now) ->
  exists id, In (id, fst o) peers /\ id <> peerId /\ is_open (fst o) = true /\
    snd o = OutForward ty peerId
              (if is_detection ty && truthy (unwrap_payload data)
                  && typeof_object (unwrap_payload data)
               then with_recv_ts (unwrap_payload data) now else unwrap_payload data).
Proof.
  unfold broadcast. rewrite in_flat_map. intros [[id s] [Hin Ho]].
  destruct (negb (String.eqb id peerId) && is_open s) eqn:Hc; [|contradiction].
  apply andb_prop in Hc as [Hne Hop]. destruct Ho as [Ho|[]]. subst o. simpl.
  exists id. split; [exact Hin|]. split; [|split; [exact Hop|reflexivity]].
  intro Heq. subst id. rewrite String.eqb_refl in Hne. discriminate.
Qed.

(** Whatever arrives, the relay's sends are the [error] reply on the
    sender's own socket, or copies stamped [from = peerId] on open sockets
    registered under an identity other than the sender's. *)
Theorem relay_sends_only_to_open_others (peers : registry) (is_open : socket -> bool)
    (peerId : string) (ws : socket) (now : Q) (raw : option jsval) (o : socket * out_msg) :
  In o (on_message peers is_open peerId ws now raw) ->
  (exists r, o = (ws, OutError "invalid_detection" r)) \/
  ((exists id, In (id, fst o) peers /\ id <> peerId /\ is_open (fst o) = true) /\
   out_from (snd o) = Some peerId).
Proof.
  unfold on_message. destruct raw as [data|]; [|intros []].
  destruct (prop data "type") as [ty|]; [|intros []].
  assert (Hb : In o (broadcast peers is_open peerId ty data now) ->
               (exists id, In (id, fst o) peers /\ id <> peerId /\ is_open (fst o) = true) /\
               out_from (snd o) = Some peerId).
  { intro Hin. destruct (broadcast_In _ _ _ _ _ _ _ Hin) as [id [H1 [H2 [H3 H4]]]].
    split; [exists id; auto|]. rewrite H4. reflexivity. }
  destruct (is_detection ty); [|intro Hin; right; exact (Hb Hin)].
  destruct (validateDetectionPayload (unwrap_payload data)) as [|r].
  - intro Hin; right; exact (Hb Hin).
  - intros [Ho|[]]. left. exists r. symmetry. exact Ho.
Qed.

(** Messages of any type other than [detection] (handshake signals, chat,
    role declarations, pings) are relayed opaquely: every copy carries the
    sender's [payload] (or the whole message when it has none) unchanged. *)
Theorem relay_forwards_non_detection_verbatim (peers : registry) (is_open : socket -> bool)
    (peerId : string) (ws : socket) (now : Q) (data ty : jsval) :
  prop data "type" = Some ty -> is_detection ty = false ->
  forall o, In o (on_message peers is_open peerId ws now (Some data)) ->
    snd o = OutForward ty peerId (unwrap_payload data).
Proof.
  intros Hty Hd o. unfold on_message. rewrite Hty, Hd. intro Hin.
  destruct (broadcast_In _ _ _ _ _ _ _ Hin) as [id [_ [_ [_ H]]]].
  rewrite H, Hd. reflexivity.
Qed.

Lemma relay_sends_only_to_open_others_witness :
  on_message [("a", 0%nat); ("b", 1%nat); ("c", 2%nat)] (fun s => negb (Nat.eqb s 2)) "a"
    0%nat 0%Q (Some score_1_5_msg) = [(0%nat, OutError "invalid_detection" (ScoreOutOfRange 0))] /\
  ((exists r, (0%nat, OutError "invalid_detection" (ScoreOutOfRange 0))
              = (0%nat, OutError "invalid_detection" r)) \/
   ((exists id, In (id, 0%nat) [("a", 0%nat); ("b", 1%nat); ("c", 2%nat)] /\ id <> "a" /\
                negb (Nat.eqb 0 2) = true) /\
    out_from (OutError "invalid_detection" (ScoreOutOfRange 0)) = Some "a")).
Proof.
  split; [reflexivity|].
  apply (relay_sends_only_to_open_others [("a", 0%nat); ("b", 1%nat); ("c", 2%nat)]
           (fun s => negb (Nat.eqb s 2)) "a" 0%nat 0%Q (Some score_1_5_msg)).
  left. reflexivity.
Defined.

Definition offer_msg : jsval :=
  JObj [("type", JStr "signal"); ("from", JStr "forged"); ("payload", offer)].

Lemma relay_forwards_non_detection_verbatim_witness :
  on_message [("a", 0%nat); ("b", 1%nat)] (fun _ => true) "a" 0%nat 0%Q (Some offer_msg)
  = [(1%nat, OutForward (JStr "signal") "a" offer)] /\
  snd (1%nat, OutForward (JStr "signal") "a" offer) = OutForward (JStr "signal") "a" offer.
Proof.
  split; [reflexivity|].
  apply (relay_forwards_non_detection_verbatim [("a", 0%nat); ("b", 1%nat)] (fun _ => true)
           "a" 0%nat 0%Q offer_msg (JStr "signal") eq_refl eq_refl).
  left. reflexivity.
Defined.

Lemma assoc_stamp_other (k : string) (v : jsval) (kvs : list (string * jsval)) :
  k <> "recv_ts" ->
  assoc k (filter (fun kv => negb (String.eqb (fst kv) "recv_ts")) kvs ++ [("recv_ts", v)])
  = assoc k kvs.
Proof.
  intro Hk. induction kvs as [|[k' v'] kvs IH]; cbn [filter fst app assoc].
  - destruct (String.eqb_spec k "recv_ts"); [contradiction|reflexivity].
  - destruct (String.eqb_spec k' "recv_ts") as [E|E]; cbn [negb app assoc].
    + subst k'. destruct (String.eqb_spec k "recv_ts"); [contradiction|exact IH].
    + destruct (String.eqb k k'); [reflexivity|exact IH].
Qed.

Lemma assoc_stamp_self (v : jsval) (kvs : list (string * jsval)) :
  assoc "recv_ts"
    (filter (fun kv => negb (String.eqb (fst kv) "recv_ts")) kvs ++ [("recv_ts", v)]) = v.
Proof.
  induction kvs as [|[k' v'] kvs IH]; [reflexivity|]. cbn [filter fst].
  destruct (String.eqb_spec k' "recv_ts") as [E|E]; cbn [negb app assoc]; [exact IH|].
  destruct (String.eqb_spec "recv_ts" k'); [congruence|exact IH].
Qed.

Lemma validate_same_fields (kvs kvs' : list (string * jsval)) :
  (forall k, k <> "recv_ts" -> assoc k kvs' = assoc k kvs) ->
  validateDetectionPayload (JObj kvs') = validateDetectionPayload (JObj kvs).
Proof.
  intro H. unfold validateDetectionPayload, field.
  rewrite (H "frame_id"), (H "capture_ts"), (H "inference_ts"), (H "detections")
    by discriminate.
  reflexivity.
Qed.

Lemma validate_ok_obj (p : jsval) :
  validateDetectionPayload p = VOk -> exists kvs, p = JObj kvs.
Proof.
  destruct p; unfold validateDetectionPayload; simpl; rewrite ?orb_true_r; try discriminate.
  intros _. eexists; reflexivity.
Qed.

(** A detection that passes the validator is broadcast with [recv_ts] set
    to the server clock (replacing any [recv_ts] the sender put there);
    every other field is copied from the sender's payload, so the stamped
    copy passes the validator as well. *)
Theorem relay_detection_copy_stamped (peers : registry) (is_open : socket -> bool)
    (peerId : string) (ws : socket) (now : Q) (data ty : jsval) :
  prop data "type" = Some ty -> is_detection ty = true ->
  validateDetectionPayload (unwrap_payload data) = VOk ->
  forall o, In o (on_message peers is_open peerId ws now (Some data)) ->
    exists pl, snd o = OutForward ty peerId pl /\
      field pl "recv_ts" = JNum now /\
      (forall k, k <> "recv_ts" -> field pl k = field (unwrap_payload data) k) /\
      validateDetectionPayload pl = VOk.
Proof.
  intros Hty Hd Hv o. unfold on_message. rewrite Hty, Hd, Hv. intro Hin.
  destruct (broadcast_In _ _ _ _ _ _ _ Hin) as [id [_ [_ [_ H]]]].
  destruct (validate_ok_obj _ Hv) as [kvs Hk].
  rewrite H, Hd, Hk. simpl. rewrite Hk in Hv.
  eexists. split; [reflexivity|]. simpl.
  split; [apply assoc_stamp_self|].
  split; [intros k Hne; apply assoc_stamp_other; exact Hne|].
  rewrite <- Hv. apply validate_same_fields. intros k Hne. apply assoc_stamp_other; exact Hne.
Qed.

Definition stamped_msg : jsval :=
  JObj [("type", JStr "detection");
        ("payload", JObj [("frame_id", JStr "f1"); ("capture_ts", JNum 10);
                          ("inference_ts", JNum 12); ("recv_ts", JNum 1);
                          ("detections", JArr [det_ok])])].

Lemma relay_detection_copy_stamped_witness :
  validateDetectionPayload (unwrap_payload stamped_msg) = VOk /\
  exists pl, snd (1%nat, OutForward (JStr "detection") "a"
                           (with_recv_ts (unwrap_payload stamped_msg) 99%Q))
             = OutForward (JStr "detection") "a" pl /\
             field pl "recv_ts" = JNum 99%Q.
Proof.
  split; [reflexivity|].
  destruct (relay_detection_copy_stamped [("a", 0%nat); ("b", 1%nat)] (fun _ => true)
              "a" 0%nat 99%Q stamped_msg (JStr "detection") eq_refl eq_refl eq_refl
              (1%nat, OutForward (JStr "detection") "a"
                        (with_recv_ts (unwrap_payload stamped_msg) 99%Q)))
    as [pl [H1 [H2 _]]].
  - left. reflexivity.
  - exists pl. split; assumption.
Defined.

(** ** Relay liveness sweep *)

Module LivenessFacts.
Import Liveness.

Definition probed_dead (cs : list client) (i : nat) : Prop :=
  exists c, nth_error cs i = Some c /\ (in_clients c = false \/ isAlive c = false).

Lemma nth_error_some_lt {A} (l : list A) (i : nat) (x : A) :
  nth_error l i = Some x -> i < List.length l.
Proof.
  intro H. apply nth_error_Some. rewrite H. discriminate.
Qed.

Lemma sweep_probed (cs : list client) (i : nat) :
  i < List.length cs -> probed_dead (sweep cs) i.
Proof.
  intro Hi. destruct (nth_error cs i) as [c|] eqn:Hc.
  - exists (sweep_one c). unfold sweep. rewrite nth_error_map, Hc. split; [reflexivity|].
    unfold sweep_one. destruct (in_clients c) eqn:Hin; simpl; [|left; exact Hin].
    destruct (isAlive c); simpl; [right|left]; reflexivity.
  - apply nth_error_None in Hc. lia.
Qed.

Lemma step_probed (cs : list client) (i : nat) (e : event) :
  probed_dead cs i -> e <> LPong i -> probed_dead (step cs e) i.
Proof.
  intros [c [Hc Hd]] He. pose proof (nth_error_some_lt _ _ _ Hc) as Hi.
  destruct e as [| |j|j]; simpl.
  - exists c. rewrite nth_error_app1 by exact Hi. auto.
  - apply sweep_probed; exact Hi.
  - unfold pong. destruct (nth_error cs j) as [c'|] eqn:Hj; [|exists c; auto].
    destruct (in_clients c'); [|exists c; auto].
    exists c. rewrite nth_error_set_nth by exact (nth_error_some_lt _ _ _ Hj).
    destruct (Nat.eqb_spec i j); [subst; contradiction|]. auto.
  - destruct (nth_error cs j) as [c'|] eqn:Hj; [|exists c; auto].
    unfold probed_dead. rewrite nth_error_set_nth by exact (nth_error_some_lt _ _ _ Hj).
    destruct (Nat.eqb_spec i j).
    + eexists; split; [reflexivity|left; reflexivity].
    + exists c; auto.
Qed.

Lemma run_probed (evs : list event) : forall cs i,
  probed_dead cs i -> (forall j, In (LPong j) evs -> j <> i) -> probed_dead (run cs evs) i.
Proof.
  induction evs as [|e evs IH]; intros cs i Hp Hn; [exact Hp|].
  simpl. apply IH.
  - apply step_probed; [exact Hp|]. intro E; subst e. exact (Hn i (or_introl eq_refl) eq_refl).
  - intros j Hj. apply Hn. right. exact Hj.
Qed.

Lemma run_app (cs : list client) (evs evs' : list event) :
  run cs (evs ++ evs') = run (run cs evs) evs'.
Proof. unfold run. apply fold_left_app. Qed.

End LivenessFacts.

(** A client present at one sweep that does not answer with a pong before
    the next sweep is terminated by that next sweep, whatever else happens
    in between (other clients connecting, answering or closing). *)
Theorem stale_client_terminated_by_next_sweep (cs : list Liveness.client) (i : nat)
    (evs : list Liveness.event) :
  i < List.length cs -> (forall j, In (Liveness.LPong j) evs -> j <> i) ->
  exists c, nth_error (Liveness.run cs (Liveness.LSweep :: evs ++ [Liveness.LSweep])) i = Some c
            /\ Liveness.in_clients c = false.
Proof.
  intros Hi Hn. cbn [Liveness.run fold_left].
  fold (Liveness.run (Liveness.step cs Liveness.LSweep) (evs ++ [Liveness.LSweep])).
  rewrite LivenessFacts.run_app.
  destruct (LivenessFacts.run_probed evs (Liveness.step cs Liveness.LSweep) i
              (LivenessFacts.sweep_probed cs i Hi) Hn) as [c [Hc Hd]].
  exists (Liveness.sweep_one c).
  change (Liveness.run ?x [Liveness.LSweep]) with (Liveness.sweep x).
  unfold Liveness.sweep. rewrite nth_error_map, Hc. split; [reflexivity|].
  unfold Liveness.sweep_one.
  destruct (Liveness.in_clients c) eqn:Hin; [|exact Hin].
  destruct Hd as [Hd|Hd]; [congruence|]. rewrite Hd. reflexivity.
Qed.

Lemma stale_client_terminated_by_next_sweep_witness :
  exists c, nth_error (Liveness.run [Liveness.mkClient true true]
                         [Liveness.LSweep; Liveness.LAccept; Liveness.LPong 1; Liveness.LSweep]) 0
            = Some c /\ Liveness.in_clients c = false.
Proof.
  apply (stale_client_terminated_by_next_sweep [Liveness.mkClient true true] 0
           [Liveness.LAccept; Liveness.LPong 1]).
  - simpl; lia.
  - intros j [H|[H|[]]]; [discriminate|]. injection H as <-. lia.
Defined.

(** ** Client connection: backoff, [connect], [disconnect], ping interval *)

(** In every reachable state each pending reconnect timer has the
    first-attempt delay [reconnectDelay * 2^0], and the attempt counter
    never takes the values 2 to 4: the exponential schedule never gets
    past its first step. *)
Theorem reconnect_delay_never_grows (h : Conn.handler) :
  Conn.reachable h ->
  Forall (fun d => d = Conn.backoff 1) (Conn.timers h) /\
  (Conn.reconnectAttempts h <= 1 \/ Conn.reconnectAttempts h = Conn.maxReconnectAttempts).
Proof.
  intro Hr. destruct (ConnFacts.conn_inv_reachable h Hr) as [_ [H2 H3]].
  split; [|exact H2]. exact H3.
Qed.

Lemma reconnect_delay_never_grows_witness :
  Conn.run Conn.init [Conn.EConnect; Conn.EOpen 0; Conn.EClose 0]
    = Some (Conn.mkHandler false 1 (Some 0) [Conn.Closed] [2000%Z]) /\
  Forall (fun d => d = Conn.backoff 1) [2000%Z].
Proof.
  split; [reflexivity|].
  exact (proj1 (reconnect_delay_never_grows (Conn.mkHandler false 1 (Some 0) [Conn.Closed] [2000%Z])
                  (ex_intro _ [Conn.EConnect; Conn.EOpen 0; Conn.EClose 0] eq_refl))).
Defined.

(** After [disconnect()] the handler is inert: [connect()] opens no new
    socket (it closes nothing and leaves the state unchanged, since
    [reconnectAttempts] stays at the maximum), a second [disconnect()]
    changes nothing, and a pending backoff timer only removes itself. *)
Theorem disconnect_is_terminal (h : Conn.handler) :
  Conn.connect (Conn.disconnect h) = Conn.disconnect h /\
  Conn.disconnect (Conn.disconnect h) = Conn.disconnect h /\
  (forall j h', Conn.step (Conn.disconnect h) (Conn.EFire j) = Some h' ->
     h' = Conn.mkHandler false Conn.maxReconnectAttempts None
            (Conn.sockets (Conn.disconnect h)) (Conn.remove_nth (Conn.timers h) j)).
Proof.
  destruct h as [c a w ss ts]. split; [|split].
  - reflexivity.
  - reflexivity.
  - intros j h'. unfold Conn.step. cbn [Conn.timers Conn.disconnect].
    destruct (nth_error ts j); intro H; [|discriminate H].
    inversion H. reflexivity.
Qed.

Lemma connect_preserves_connected (h : Conn.handler) :
  Conn.connected (Conn.connect h) = Conn.connected h.
Proof.
  unfold Conn.connect. rewrite (proj1 (ConnFacts.establishConnection_fields _)).
  destruct (Conn.ws h); reflexivity.
Qed.

Lemma handleDisconnect_not_connected (h : Conn.handler) :
  Conn.connected (Conn.handleDisconnect h) = false.
Proof.
  unfold Conn.handleDisconnect. destruct (Conn.connected h) eqn:E; simpl; [reflexivity|exact E].
Qed.

(** [connect()] on a connected handler closes the open socket and, since
    [establishConnection] returns early while [connected] is set, opens no
    new one; the close event of the old socket then counts as a failed
    connection and schedules a reconnect after [backoff 1]. *)
Theorem connect_while_connected_opens_nothing (h : Conn.handler) (i : nat) :
  Conn.reachable h -> Conn.connected h = true -> Conn.ws h = Some i ->
  nth_error (Conn.sockets h) i = Some Conn.Open ->
  exists h2,
    Conn.sockets (Conn.connect h) = set_nth (Conn.sockets h) i Conn.Closing /\
    Conn.ws (Conn.connect h) = None /\
    Conn.connected (Conn.connect h) = true /\
    Conn.run h [Conn.EConnect; Conn.EClose i] = Some h2 /\
    Conn.connected h2 = false /\ Conn.reconnectAttempts h2 = 1 /\
    Conn.timers h2 = Conn.timers h ++ [Conn.backoff 1] /\
    List.length (Conn.sockets h2) = List.length (Conn.sockets h).
Proof.
  intros Hr Hc Hw Hs.
  destruct (ConnFacts.conn_inv_reachable h Hr) as [H1 _].
  pose proof (H1 Hc) as Ha.
  destruct h as [c a w ss ts]; cbn in Hc, Hw, Hs, Ha; subst c a w.
  assert (Hlt : i < List.length ss) by (apply nth_error_Some; rewrite Hs; discriminate).
  assert (Hcon : Conn.connect (Conn.mkHandler true 0 (Some i) ss ts)
                 = Conn.mkHandler true 0 None (set_nth ss i Conn.Closing) ts).
  { unfold Conn.connect, Conn.close_sock. cbn [Conn.ws Conn.sockets]. rewrite Hs. reflexivity. }
  rewrite Hcon.
  exists (Conn.handleDisconnect
            (Conn.mkHandler true 0 None
               (set_nth (set_nth ss i Conn.Closing) i Conn.Closed) ts)).
  split; [reflexivity|]. split; [reflexivity|]. split; [reflexivity|].
  split.
  - cbn [Conn.run Conn.step]. rewrite Hcon. cbn [Conn.sockets Conn.connected
      Conn.reconnectAttempts Conn.ws Conn.timers].
    rewrite nth_error_set_nth by exact Hlt. rewrite Nat.eqb_refl. reflexivity.
  - cbn. split; [reflexivity|]. split; [reflexivity|]. split; [reflexivity|].
    rewrite !length_set_nth. reflexivity.
Qed.

Lemma connect_while_connected_opens_nothing_witness :
  Conn.run Conn.init [Conn.EConnect; Conn.EOpen 0]
    = Some (Conn.mkHandler true 0 (Some 0) [Conn.Open] []) /\
  exists h2, Conn.run (Conn.mkHandler true 0 (Some 0) [Conn.Open] [])
               [Conn.EConnect; Conn.EClose 0] = Some h2 /\
             Conn.timers h2 = [Conn.backoff 1].
Proof.
  split; [reflexivity|].
  destruct (connect_while_connected_opens_nothing (Conn.mkHandler true 0 (Some 0) [Conn.Open] []) 0
              (ex_intro _ [Conn.EConnect; Conn.EOpen 0] eq_refl) eq_refl eq_refl eq_refl)
    as [h2 [_ [_ [_ [Hrun [_ [_ [Ht _]]]]]]]].
  exists h2. split; [exact Hrun|]. exact Ht.
Defined.

Module ConnPingFacts.
Import Conn ConnPing.

Lemma step_connected (h h' : handler) (e : event) :
  step h e = Some h' ->
  connected h' = match e with
                 | EOpen _ => true
                 | EError _ | EClose _ | EDisconnect => false
                 | EConnect | EFire _ => connected h
                 end.
Proof.
  destruct e; simpl; intro H.
  - inversion H; subst. apply connect_preserves_connected.
  - inversion H; subst. reflexivity.
  - destruct (nth_error (sockets h) i) as [[]|]; inversion H; subst; reflexivity.
  - destruct (nth_error (sockets h) i) as [[]|]; inversion H; subst;
      apply handleDisconnect_not_connected.
  - destruct (nth_error (sockets h) i) as [[]|]; inversion H; subst;
      apply handleDisconnect_not_connected.
  - destruct (nth_error (timers h) j); inversion H; subst.
    rewrite (proj1 (ConnFacts.establishConnection_fields _)). reflexivity.
Qed.

Lemma ping_step_tracks (h h' : handler) (e : event) (p : bool) :
  step h e = Some h' -> e <> EDisconnect -> p = connected h ->
  ping_after h e p = connected h'.
Proof.
  intros Hs Hne Hp. rewrite (step_connected _ _ _ Hs).
  destruct e; simpl; try reflexivity; try exact Hp; try (exfalso; apply Hne; reflexivity);
    destruct (connected h); congruence.
Qed.

Lemma ping_step_covers (h h' : handler) (e : event) (p : bool) :
  step h e = Some h' -> (connected h = true -> p = true) ->
  connected h' = true -> ping_after h e p = true.
Proof.
  intros Hs Hp. rewrite (step_connected _ _ _ Hs).
  destruct e; simpl; try discriminate; auto.
Qed.

Lemma run_ping_covers (evs : list event) : forall h0 p0 h p,
  (connected h0 = true -> p0 = true) -> run_ping h0 p0 evs = Some (h, p) ->
  connected h = true -> p = true.
Proof.
  induction evs as [|e evs IH]; simpl; intros h0 p0 h p Hinv Hr.
  - inversion Hr; subst. exact Hinv.
  - destruct (step h0 e) as [h1|] eqn:Hs; [|discriminate].
    apply (IH h1 (ping_after h0 e p0) h p); [|exact Hr].
    exact (ping_step_covers _ _ _ _ Hs Hinv).
Qed.

End ConnPingFacts.

(** Until [disconnect()] is called, the ping interval is running exactly
    when the handler is connected: [onopen] starts it and [handleDisconnect]
    stops it past its [connected] guard. *)
Theorem ping_interval_tracks_connection (evs : list Conn.event) (h : Conn.handler) (p : bool) :
  ConnPing.run_ping Conn.init false evs = Some (h, p) -> ~ In Conn.EDisconnect evs ->
  p = Conn.connected h.
Proof.
  assert (Hgen : forall h0 p0, p0 = Conn.connected h0 ->
            ConnPing.run_ping h0 p0 evs = Some (h, p) -> ~ In Conn.EDisconnect evs ->
            p = Conn.connected h).
  { induction evs as [|e evs IH]; simpl; intros h0 p0 Hp Hr Hn.
    - inversion Hr; subst. reflexivity.
    - destruct (Conn.step h0 e) as [h1|] eqn:Hs; [|discriminate].
      apply (IH h1 (ConnPing.ping_after h0 e p0)); [|exact Hr|tauto].
      apply (ConnPingFacts.ping_step_tracks _ _ _ _ Hs); [|exact Hp].
      intro E; subst e; tauto. }
  apply Hgen. reflexivity.
Qed.

Lemma ping_interval_tracks_connection_witness :
  ConnPing.run_ping Conn.init false [Conn.EConnect; Conn.EOpen 0]
    = Some (Conn.mkHandler true 0 (Some 0) [Conn.Open] [], true) /\
  true = Conn.connected (Conn.mkHandler true 0 (Some 0) [Conn.Open] []).
Proof.
  split; [reflexivity|].
  apply (ping_interval_tracks_connection [Conn.EConnect; Conn.EOpen 0]); [reflexivity|].
  intros [H|[H|[]]]; discriminate.
Defined.

(** [disconnect()] on a connected handler clears [connected] but does not
    call [_stopPing]: the 20-second ping interval keeps running (it only
    sends while [this.ws] is set and open). *)
Theorem disconnect_leaves_ping_running (evs : list Conn.event) (h : Conn.handler) (p : bool) :
  ConnPing.run_ping Conn.init false evs = Some (h, p) -> Conn.connected h = true ->
  ConnPing.run_ping h p [Conn.EDisconnect] = Some (Conn.disconnect h, true) /\
  Conn.connected (Conn.disconnect h) = false.
Proof.
  intros Hr Hc.
  pose proof (ConnPingFacts.run_ping_covers evs Conn.init false h p
                (fun H => H) Hr Hc) as Hp.
  subst p. split; reflexivity.
Qed.

Lemma disconnect_leaves_ping_running_witness :
  ConnPing.run_ping Conn.init false [Conn.EConnect; Conn.EOpen 0]
    = Some (Conn.mkHandler true 0 (Some 0) [Conn.Open] [], true) /\
  ConnPing.run_ping (Conn.mkHandler true 0 (Some 0) [Conn.Open] []) true [Conn.EDisconnect]
    = Some (Conn.disconnect (Conn.mkHandler true 0 (Some 0) [Conn.Open] []), true).
Proof.
  split; [reflexivity|].
  exact (proj1 (disconnect_leaves_ping_running [Conn.EConnect; Conn.EOpen 0]
                  (Conn.mkHandler true 0 (Some 0) [Conn.Open] []) true eq_refl eq_refl)).
Defined.

(** ** Signalling state of the client *)

Module SigInv.
Import Sig.

Definition sig_inv (s : sig_state) : Prop :=
  (peer s <> None -> pendingSignal s = None) /\
  (forall x, pendingSignal s = Some x -> truthy x = true) /\
  (forall p, peer s = Some p -> p < peers_made s) /\
  Forall (fun a => truthy (snd a) = true /\ fst a < peers_made s) (applied s).

Lemma sig_inv_init : sig_inv init.
Proof.
  split; [|split; [|split]]; simpl; try discriminate; auto.
Qed.

Lemma applied_bound_S (ap : list (nat * jsval)) (n : nat) :
  Forall (fun a => truthy (snd a) = true /\ fst a < n) ap ->
  Forall (fun a => truthy (snd a) = true /\ fst a < S n) ap.
Proof. apply Forall_impl. intros a [H1 H2]. split; [exact H1|lia]. Qed.

Lemma createPeer_inv (s : sig_state) : sig_inv s -> sig_inv (createPeer s).
Proof.
  destruct s as [pr mk pd cid ap]. intros [H1 [H2 [H3 H4]]]; simpl in *.
  unfold createPeer; simpl. destruct pr as [q|]; [split; auto|].
  destruct pd as [x|].
  - pose proof (H2 x eq_refl) as Hx. rewrite Hx.
    split; [|split; [|split]]; simpl; try discriminate.
    + intros _; reflexivity.
    + intros p E; injection E as <-; lia.
    + apply Forall_app; split; [apply applied_bound_S, H4|].
      constructor; [simpl; split; [exact Hx|lia]|constructor].
  - split; [|split; [|split]]; simpl; try discriminate.
    + intros _; reflexivity.
    + intros p E; injection E as <-; lia.
    + apply applied_bound_S, H4.
Qed.

Lemma on_signal_inv (s : sig_state) (m : jsval) : sig_inv s -> sig_inv (on_signal s m).
Proof.
  destruct s as [pr mk pd cid ap]. intros Hinv.
  pose proof Hinv as [H1 [H2 [H3 H4]]]; simpl in *.
  unfold on_signal; simpl.
  destruct (negb (strict_eq (field m "from") cid)); [|exact Hinv].
  destruct (truthy (incoming_of m)) eqn:Ht; simpl; [|exact Hinv].
  destruct pr as [q|].
  - destruct (isValidSignal (incoming_of m)); [|exact Hinv].
    split; [|split; [|split]]; simpl; auto.
    apply Forall_app; split; [exact H4|].
    constructor; [simpl; split; [exact Ht|exact (H3 q eq_refl)]|constructor].
  - split; [|split; [|split]]; simpl.
    + intro E; exfalso; apply E; reflexivity.
    + intros x E; injection E as <-; exact Ht.
    + discriminate.
    + exact H4.
Qed.

Lemma step_inv (s : sig_state) (e : event) : sig_inv s -> sig_inv (step s e).
Proof.
  intro Hinv. destruct e as [m| | |]; simpl.
  - unfold handleMessage. destruct (field m "type") as [| | | |t| |]; try exact Hinv.
    destruct (String.eqb t "id").
    + apply createPeer_inv. destruct s as [pr mk pd cid ap]. exact Hinv.
    + destruct (String.eqb t "signal"); [apply on_signal_inv, Hinv|exact Hinv].
  - destruct s as [pr mk pd cid ap]; destruct Hinv as [H1 [H2 [H3 H4]]].
    unfold sig_inv; simpl in *.
    split; [intro E; exfalso; apply E; reflexivity|]. split; [exact H2|]. split; [discriminate|exact H4].
  - apply createPeer_inv, Hinv.
  - destruct s as [pr mk pd cid ap]; destruct Hinv as [H1 [H2 [H3 H4]]].
    unfold sig_inv; simpl in *.
    split; [intro E; exfalso; apply E; reflexivity|]. split; [exact H2|]. split; [discriminate|exact H4].
Qed.

Lemma run_inv (evs : list event) : forall s, sig_inv s -> sig_inv (run s evs).
Proof.
  induction evs as [|e evs IH]; intros s H; [exact H|]. simpl. apply IH, step_inv, H.
Qed.

End SigInv.

(** Along every sequence of server messages, peer resets, [createPeer]
    timers and [disconnect()] calls: a signal is held pending only while no
    peer exists; a pending signal is always present (truthy); and every
    [peer.signal(x)] call is made with a present [x] on a peer that has
    already been constructed. *)
Theorem signal_state_invariant (evs : list Sig.event) :
  let s := Sig.run Sig.init evs in
  (Sig.peer s <> None -> Sig.pendingSignal s = None) /\
  (forall x, Sig.pendingSignal s = Some x -> truthy x = true) /\
  Forall (fun a => truthy (snd a) = true /\ fst a < Sig.peers_made s) (Sig.applied s).
Proof.
  intro s. destruct (SigInv.run_inv evs Sig.init SigInv.sig_inv_init) as [H1 [H2 [_ H4]]].
  auto.
Qed.

Lemma unwrap_once_wrap (k : nat) (x : jsval) :
  is_undefined x = false -> Sig.unwrap_once (wrap (S k) x) = wrap k x.
Proof.
  intro Hx. assert (Hw : is_undefined (wrap k x) = false) by (destruct k; [exact Hx|reflexivity]).
  unfold Sig.unwrap_once. cbn [wrap field assoc].
  rewrite String.eqb_refl, Hw. reflexivity.
Qed.

Lemma unwrap_once_bare (x : jsval) :
  is_undefined (field x "payload") = true -> Sig.unwrap_once x = x.
Proof.
  intro H. unfold Sig.unwrap_once. rewrite H, andb_false_r. reflexivity.
Qed.

Lemma incoming_of_signal (from : string) (w : jsval) :
  is_undefined w = false ->
  Sig.incoming_of (signal_msg from w) = Sig.unwrap_once (Sig.unwrap_once (Sig.unwrap_once w)).
Proof.
  intro Hw. unfold Sig.incoming_of.
  change (field (signal_msg from w) "payload") with w. rewrite Hw. reflexivity.
Qed.

(** The client strips up to three [{ payload: ... }] wrappers from a relayed
    signal, whatever the sender nested; a fourth wrapper survives and
    reaches the validity check still wrapped. *)
Theorem signal_unwrap_depth (from : string) (x : jsval) :
  is_undefined x = false -> is_undefined (field x "payload") = true ->
  (forall k, k <= 3 -> Sig.incoming_of (signal_msg from (wrap k x)) = x) /\
  Sig.incoming_of (signal_msg from (wrap 4 x)) = wrap 1 x.
Proof.
  intros Hx Hp.
  assert (Hw : forall k, is_undefined (wrap k x) = false) by (intros [|k]; [exact Hx|reflexivity]).
  split.
  - intros k Hk. rewrite (incoming_of_signal from _ (Hw k)).
    destruct k as [|[|[|[|k]]]]; try lia.
    + change (wrap 0 x) with x. rewrite !(unwrap_once_bare x Hp). reflexivity.
    + rewrite (unwrap_once_wrap 0 x Hx). change (wrap 0 x) with x.
      rewrite !(unwrap_once_bare x Hp). reflexivity.
    + rewrite !(unwrap_once_wrap _ x Hx). change (wrap 0 x) with x.
      rewrite (unwrap_once_bare x Hp). reflexivity.
    + rewrite !(unwrap_once_wrap _ x Hx). reflexivity.
  - rewrite (incoming_of_signal from _ (Hw 4)). rewrite !(unwrap_once_wrap _ x Hx).
    reflexivity.
Qed.

Lemma signal_unwrap_depth_witness :
  Sig.incoming_of (signal_msg "b" (wrap 3 offer)) = offer /\
  Sig.isValidSignal (Sig.incoming_of (signal_msg "b" (wrap 4 offer))) = false.
Proof.
  destruct (signal_unwrap_depth "b" offer eq_refl eq_refl) as [H3 H4].
  split; [apply H3; lia|]. rewrite H4. reflexivity.
Defined.

(** ** Server-inference capture loop *)

(** While a POST is outstanding and the video is ready, each firing of a
    pending timeout draws and encodes a frame, sends nothing, and leaves one
    more timeout pending than before: the timeout chains multiply for as
    long as the request is in flight. *)
Theorem inflight_ticks_multiply_timeouts (n : nat) (l : InferLoop.loop) :
  InferLoop.stopped l = false -> InferLoop.video_ready l = true ->
  InferLoop.inflight l = true -> 1 <= InferLoop.scheduled l ->
  exists l', infer_ticks n l = Some l' /\
    InferLoop.sends l' = InferLoop.sends l /\
    InferLoop.captures l' = InferLoop.captures l + n /\
    InferLoop.scheduled l' = InferLoop.scheduled l + n /\
    InferLoop.inflight l' = true /\ InferLoop.stopped l' = false.
Proof.
  revert l. induction n as [|n IH]; intros [st vr inf c snd sch] Hs Hv Hi Hsch;
    simpl in Hs, Hv, Hi, Hsch; subst st vr inf.
  - eexists; split; [reflexivity|]. simpl. repeat split; lia.
  - destruct sch as [|sch]; [lia|].
    destruct (IH (InferLoop.mkLoop false true true (S c) snd (S (S sch)))
                eq_refl eq_refl eq_refl ltac:(simpl; lia)) as [l' [Hr [H1 [H2 [H3 [H4 H5]]]]]].
    exists l'. split; [exact Hr|]. simpl in H1, H2, H3. simpl.
    split; [exact H1|]. split; [lia|]. split; [lia|]. split; assumption.
Qed.

Lemma inflight_ticks_multiply_timeouts_witness :
  infer_ticks 3 (InferLoop.mkLoop false true true 1 1 1)
    = Some (InferLoop.mkLoop false true true 4 1 4) /\
  exists l', infer_ticks 3 (InferLoop.mkLoop false true true 1 1 1) = Some l' /\
             InferLoop.sends l' = 1.
Proof.
  split; [reflexivity|].
  destruct (inflight_ticks_multiply_timeouts 3 (InferLoop.mkLoop false true true 1 1 1)
              eq_refl eq_refl eq_refl ltac:(simpl; lia)) as [l' [Hr [Hs _]]].
  exists l'. split; [exact Hr|exact Hs].
Defined.

(** Once [stopped] is set, the pending timeouts fire one by one without
    capturing or sending and none is rescheduled: after exactly
    [scheduled] firings the chain is gone. *)
Theorem stopped_loop_drains (l : InferLoop.loop) :
  InferLoop.stopped l = true ->
  exists l', infer_ticks (InferLoop.scheduled l) l = Some l' /\
    InferLoop.scheduled l' = 0 /\ InferLoop.tick l' = None /\
    InferLoop.captures l' = InferLoop.captures l /\ InferLoop.sends l' = InferLoop.sends l.
Proof.
  destruct l as [st vr inf c snd sch]. simpl. intro Hs. subst st.
  induction sch as [|sch IH].
  - eexists; split; [reflexivity|]. simpl. auto.
  - destruct IH as [l' [Hr [H1 [H2 [H3 H4]]]]].
    exists l'. split; [exact Hr|]. auto.
Qed.

Lemma stopped_loop_drains_witness :
  infer_ticks 2 (InferLoop.mkLoop true true false 5 3 2)
    = Some (InferLoop.mkLoop true true false 5 3 0) /\
  exists l', infer_ticks 2 (InferLoop.mkLoop true true false 5 3 2) = Some l' /\
             InferLoop.tick l' = None.
Proof.
  split; [reflexivity|].
  destruct (stopped_loop_drains (InferLoop.mkLoop true true false 5 3 2) eq_refl)
    as [l' [Hr [_ [Ht _]]]].
  exists l'. split; [exact Hr|exact Ht].
Defined.

(** Until [stopped] is set, the chain of pending timeouts never dies out:
    no firing lowers the number pending, whether the video is ready, a
    request is in flight or a frame is sent. *)
Theorem running_loop_never_drains (n : nat) (l : InferLoop.loop) :
  InferLoop.stopped l = false -> 1 <= InferLoop.scheduled l ->
  exists l', infer_ticks n l = Some l' /\
    InferLoop.scheduled l <= InferLoop.scheduled l' /\ InferLoop.stopped l' = false.
Proof.
  revert l. induction n as [|n IH]; intros l Hs Hsch.
  - exists l. split; [reflexivity|]. split; [lia|exact Hs].
  - destruct l as [st vr inf c snd [|sch]]; simpl in Hs, Hsch; [lia|]. subst st.
    set (l1 := InferLoop.sendFrame (InferLoop.mkLoop false vr inf c snd sch)).
    assert (H1 : InferLoop.stopped l1 = false /\ S sch <= InferLoop.scheduled l1).
    { subst l1. unfold InferLoop.sendFrame. simpl.
      destruct vr, inf; simpl; split; auto; lia. }
    destruct H1 as [H1s H1c].
    destruct (IH l1 H1s ltac:(lia)) as [l' [Hr [Hc Hs']]].
    exists l'. split; [exact Hr|]. split; [simpl; lia|exact Hs'].
Qed.

Lemma running_loop_never_drains_witness :
  exists l', infer_ticks 5 (InferLoop.mkLoop false false false 0 0 1) = Some l' /\
             1 <= InferLoop.scheduled l'.
Proof.
  destruct (running_loop_never_drains 5 (InferLoop.mkLoop false false false 0 0 1)
              eq_refl ltac:(simpl; lia)) as [l' [Hr [Hc _]]].
  exists l'. split; [exact Hr|]. simpl in Hc. exact Hc.
Defined.

Module SigReset.
Import Sig.

Definition after_reset (m : nat) (A : list (nat * jsval)) (s : sig_state) : Prop :=
  (forall p, peer s = Some p -> m <= p) /\ m <= peers_made s /\
  exists suf, applied s = A ++ suf /\ Forall (fun a => m <= fst a) suf.

Lemma createPeer_after_reset (m : nat) (A : list (nat * jsval)) (s : sig_state) :
  after_reset m A s -> after_reset m A (createPeer s).
Proof.
  destruct s as [pr mk pd cid ap]. intros [H1 [H2 [suf [H3 H4]]]]; simpl in *.
  unfold createPeer; simpl. destruct pr as [q|]; [split; [exact H1|split; eauto]|].
  split; [intros p E; destruct pd as [x|]; [destruct (truthy x)|];
          injection E as <-; exact H2|].
  destruct pd as [x|]; [destruct (truthy x)|]; simpl; (split; [lia|]).
  - exists (suf ++ [(mk, x)]). split; [rewrite H3, app_assoc; reflexivity|].
    apply Forall_app; split; [exact H4|constructor; [simpl; exact H2|constructor]].
  - eauto.
  - eauto.
Qed.

Lemma step_after_reset (m : nat) (A : list (nat * jsval)) (s : sig_state) (e : event) :
  after_reset m A s -> after_reset m A (step s e).
Proof.
  intro H. destruct e as [msg| | |]; simpl.
  - unfold handleMessage. destruct (field msg "type") as [| | | |t| |]; try exact H.
    destruct (String.eqb t "id").
    + apply createPeer_after_reset. destruct s as [pr mk pd cid ap]. exact H.
    + destruct (String.eqb t "signal"); [|exact H].
      destruct s as [pr mk pd cid ap]. destruct H as [H1 [H2 [suf [H3 H4]]]]; simpl in *.
      unfold on_signal; simpl.
      destruct (negb (strict_eq (field msg "from") cid)); [|split; [exact H1|eauto]].
      destruct (truthy (incoming_of msg)); simpl; [|split; [exact H1|eauto]].
      destruct pr as [q|].
      * destruct (isValidSignal (incoming_of msg)); [|split; [exact H1|eauto]].
        split; [exact H1|]. split; [exact H2|].
        exists (suf ++ [(q, incoming_of msg)]). split; [rewrite H3, app_assoc; reflexivity|].
        apply Forall_app; split; [exact H4|constructor; [exact (H1 q eq_refl)|constructor]].
      * split; [discriminate|eauto].
  - destruct s as [pr mk pd cid ap]. destruct H as [H1 [H2 H3]].
    split; [discriminate|exact (conj H2 H3)].
  - apply createPeer_after_reset, H.
  - destruct s as [pr mk pd cid ap]. destruct H as [H1 [H2 H3]].
    split; [discriminate|exact (conj H2 H3)].
Qed.

Lemma run_after_reset (m : nat) (A : list (nat * jsval)) (evs : list event) : forall s,
  after_reset m A s -> after_reset m A (run s evs).
Proof.
  induction evs as [|e evs IH]; intros s H; [exact H|]. simpl. apply IH, step_after_reset, H.
Qed.

End SigReset.

(** Once [resetPeer] or [disconnect()] has dropped the peer, every later
    [peer.signal] call goes to a peer constructed afterwards: the earlier
    calls stay as they were and the destroyed peer (numbered below
    [peers_made] at that time) never receives a signal again. *)
Theorem dropped_peer_gets_no_signal (s : Sig.sig_state) (e : Sig.event) (evs : list Sig.event) :
  e = Sig.SResetPeer \/ e = Sig.SDisconnect ->
  exists suf, Sig.applied (Sig.run (Sig.step s e) evs) = Sig.applied s ++ suf /\
              Forall (fun a => Sig.peers_made s <= fst a) suf.
Proof.
  intro He.
  assert (H0 : SigReset.after_reset (Sig.peers_made s) (Sig.applied s) (Sig.step s e)).
  { destruct s as [pr mk pd cid ap].
    destruct He as [-> | ->]; unfold SigReset.after_reset; simpl;
      (split; [discriminate|]); (split; [lia|]); exists []; rewrite app_nil_r; auto. }
  destruct (SigReset.run_after_reset _ _ evs _ H0) as [_ [_ H]]. exact H.
Qed.

Lemma dropped_peer_gets_no_signal_witness :
  Sig.applied (Sig.run (Sig.step (Sig.mkSig (Some 0) 1 None (JStr "me") [(0, offer)]) Sig.SResetPeer)
                 [Sig.SCreatePeerTimer; Sig.SMsg (signal_msg "b" offer)])
    = [(0, offer); (1, offer)] /\
  exists suf, Sig.applied (Sig.run (Sig.step (Sig.mkSig (Some 0) 1 None (JStr "me") [(0, offer)])
                                     Sig.SResetPeer)
                             [Sig.SCreatePeerTimer; Sig.SMsg (signal_msg "b" offer)])
              = [(0, offer)] ++ suf /\ Forall (fun a => 1 <= fst a) suf.
Proof.
  split; [reflexivity|].
  exact (dropped_peer_gets_no_signal (Sig.mkSig (Some 0) 1 None (JStr "me") [(0, offer)])
           Sig.SResetPeer [Sig.SCreatePeerTimer; Sig.SMsg (signal_msg "b" offer)]
           (or_introl eq_refl)).
Defined.
